(** * Session lifecycle manager over a key-value store with expiring keys

    Shallow embedding of [src/app/redis/RedisManagement.js] (class
    [RedisSessionMgmt]) together with the four promisified client commands
    [get], [set], [expire], [del] that the wrapper class [Redis]
    ([createRedisAsync]) hands to it as [redisPub].

    Conventions of the embedding.
    - A JavaScript value is a term of [value]; numbers are the integer-valued
      ones.  The JavaScript [null] returned by the client for a missing key is
      [None : option string]; the [null] returned by [get] is [VNull].
    - The built-in [JSON] object is an interface ([JsonCodec]); theorems are
      stated for an arbitrary implementation and name the facts about it they
      rely on.  [mini_json] is an executable implementation, proved to read
      back what it writes, used to run the model on concrete inputs.
    - An [async] method is a computation of the monad [M]: it transforms a
      [world] (the store contents and the sequence of commands sent so far)
      and either returns or throws.  Calls are run one after the other; store
      commands themselves do not fail.
    - Calls to [logger] have no effect on the store or on the result and are
      left out.

    The file also embeds the resolvers [getDeviceById] and [getDevices] of
    [src/app/graphql/device/Resolvers.js], with the HTTP client and the
    helpers they import as parameters. *)

From Stdlib Require Import ZArith String Ascii List Bool Lia.
From Stdlib Require Import DecimalString DecimalFacts DecimalPos.
From stdpp Require Import base option gmap strings list fin_maps.

Local Open Scope string_scope.
Local Open Scope Z_scope.

(** ** JavaScript values *)

#[local] Set Warnings "-register-all".

Inductive value : Type :=
  | VUndefined
  | VNull
  | VBool (b : bool)
  | VNum (n : Z)
  | VStr (s : string)
  | VArr (items : list value)
  | VObj (props : list (string * value)).

(** What a [throw] carries: one of the two built-in errors met here, or the
    reason of a rejection. *)
Inductive error : Type :=
  | TypeError
  | SyntaxError
  | Thrown (reason : value).

Inductive result (A : Type) : Type :=
  | Ok (a : A)
  | Throw (e : error).
Arguments Ok {A} a.
Arguments Throw {A} e.

(** ToBoolean: [undefined], [null], [false], [0] and the empty string are
    falsy; everything else, objects and arrays included, is truthy. *)
Definition truthy (v : value) : bool :=
  match v with
  | VUndefined | VNull => false
  | VBool b => b
  | VNum n => negb (n =? 0)
  | VStr s => negb (String.eqb s "")
  | VArr _ | VObj _ => true
  end.

(** Own property [k] of an object, in property order. *)
Fixpoint assoc (k : string) (props : list (string * value)) : value :=
  match props with
  | [] => VUndefined
  | (k', v) :: rest => if String.eqb k' k then v else assoc k rest
  end.

(** Property read [v.k].  Reading a property of [null] or [undefined] throws;
    primitives and arrays have no property of the names used here. *)
Definition get_prop (k : string) (v : value) : result value :=
  match v with
  | VUndefined | VNull => Throw TypeError
  | VObj props => Ok (assoc k props)
  | VBool _ | VNum _ | VStr _ | VArr _ => Ok VUndefined
  end.

(** The built-in [JSON] object. *)
Class JsonCodec : Type := {
  JSON_stringify : value -> string;
  JSON_parse : string -> result value
}.

(** ToString of the argument of [JSON.parse]: the client returns a string or
    [null], and [null] converts to the text [null]. *)
Definition to_text (data : option string) : string :=
  match data with
  | Some s => s
  | None => "null"
  end.

(** ** String operations used by the listener *)

(** [s.slice(n)] for [0 <= n]. *)
Fixpoint slice (n : nat) (s : string) : string :=
  match n, s with
  | O, _ => s
  | S n', EmptyString => EmptyString
  | S n', String _ s' => slice n' s'
  end.

(** [s.substring(0, n)] is [String.substring 0 n s]. *)

(** ** The store *)

(** An entry of the store: its value and its remaining time to live in
    seconds ([None]: the key does not expire). *)
Record entry : Type := mkEntry {
  e_value : string;
  e_ttl : option Z
}.

(** Commands sent to the store, and calls of the eviction hook. *)
Inductive event : Type :=
  | EvGet (key : string)
  | EvSet (key : string) (val : string)
  | EvExpire (key : string) (seconds : Z)
  | EvDel (key : string)
  | EvHook (realm accessToken refreshToken : value).

Record world : Type := mkWorld {
  store : gmap string entry;
  trace : list event
}.

Definition emit (ev : event) (w : world) : world :=
  {| store := store w; trace := trace w ++ [ev] |}.

Definition with_store (s : gmap string entry) (w : world) : world :=
  {| store := s; trace := trace w |}.

(** ** The monad of calls *)

Definition M (A : Type) : Type := world -> world * result A.

Definition ret {A} (a : A) : M A := fun w => (w, Ok a).

Definition throw {A} (e : error) : M A := fun w => (w, Throw e).

Definition bind {A B} (m : M A) (k : A -> M B) : M B :=
  fun w =>
    match m w with
    | (w', Ok a) => k a w'
    | (w', Throw e) => (w', Throw e)
    end.

(** [try { body } catch (err) { handler }] *)
Definition try_catch {A} (body : M A) (handler : error -> M A) : M A :=
  fun w =>
    match body w with
    | (w', Ok a) => (w', Ok a)
    | (w', Throw e) => handler e w'
    end.

(** A synchronous expression that may throw. *)
Definition eval {A} (r : result A) : M A := fun w => (w, r).

Notation "'await' x <- m ; k" := (bind m (fun x => k))
  (at level 10, x name, m at level 100, k at level 200).

(** ** The store client ([redisPubAsync]) *)

Module redisPub.

(** GET: the value, or [null] ([None]) for a missing key. *)
Definition get (key : string) : M (option string) :=
  fun w => (emit (EvGet key) w, Ok (e_value <$> store w !! key)).

(** SET without options: stores the value and clears any time to live. *)
Definition set (key val : string) : M string :=
  fun w => (emit (EvSet key val) (with_store (<[key := mkEntry val None]> (store w)) w),
            Ok "OK").

(** EXPIRE: on a missing key does nothing and answers 0; otherwise answers 1
    and sets the time to live, a time that is not positive deleting the
    key. *)
Definition expire (key : string) (seconds : Z) : M Z :=
  fun w =>
    match store w !! key with
    | None => (emit (EvExpire key seconds) w, Ok 0)
    | Some e =>
        let s' := if seconds <=? 0 then delete key (store w)
                  else <[key := mkEntry (e_value e) (Some seconds)]> (store w) in
        (emit (EvExpire key seconds) (with_store s' w), Ok 1)
    end.

(** DEL: answers the number of keys removed. *)
Definition del (key : string) : M Z :=
  fun w =>
    (emit (EvDel key) (with_store (delete key (store w)) w),
     Ok (if store w !! key is Some _ then 1 else 0)).

End redisPub.

(** Passing of time: after [d] seconds the entries whose time to live has run
    out are gone, the others are [d] seconds older. *)
Definition expired_after (d : Z) (e : entry) : bool :=
  match e_ttl e with
  | Some t => t <=? d
  | None => false
  end.

Definition age (d : Z) (e : entry) : entry :=
  {| e_value := e_value e; e_ttl := (fun t => t - d) <$> e_ttl e |}.

Definition survivors (d : Z) (s : gmap string entry) : gmap string entry :=
  age d <$> filter (fun kv => expired_after d kv.2 = false) s.

Definition expired_keys (d : Z) (s : gmap string entry) : list string :=
  (map_to_list (filter (fun kv => expired_after d kv.2 = true) s)).*1.

Definition elapse (d : Z) (w : world) : world := with_store (survivors d (store w)) w.

(** ** Configuration ([getConfig('BS').session]) *)

(** A setting that is not given is [None]. *)
Record session_config : Type := mkConfig {
  redis_max_life_time_sec : option Z;
  redis_max_idle_time_sec : option Z;
  redis_max_login_return_time_sec : option Z;
  redis_key_prefix_name_max_life : option string;
  redis_key_prefix_name_max_idle : option string
}.

(** [x || d] on a number setting: [undefined] and [0] give the default. *)
Definition or_num (x : option Z) (d : Z) : Z :=
  match x with
  | Some n => if n =? 0 then d else n
  | None => d
  end.

(** [x || d] on a string setting: [undefined] and the empty string give the
    default. *)
Definition or_str (x : option string) (d : string) : string :=
  match x with
  | Some s => if String.eqb s "" then d else s
  | None => d
  end.

(** ** The session manager *)

(** The function registered by [setFuncToCallBeforeDestroy]: it receives
    [(realm, accessToken, refreshToken)] and resolves or rejects. *)
Definition hook : Type := value -> value -> value -> result unit.

Record RedisSessionMgmt : Type := mkMgmt {
  maxLifetime : Z;
  maxIdleTime : Z;
  maxLoginReturnTime : Z;
  prefixSession : string;
  prefixSessionIdle : string;
  prefixSessionIdleSize : nat;
  sessionIdleValue : string;
  beforeDestroy : option hook
}.

(** [constructor(redisPub, redisSub)] *)
Definition constructor (sessionRedisConfig : session_config) : RedisSessionMgmt :=
  let prefixIdle := or_str (redis_key_prefix_name_max_idle sessionRedisConfig) "session-idle:" in
  {| maxLifetime := or_num (redis_max_life_time_sec sessionRedisConfig) 86400;
     maxIdleTime := or_num (redis_max_idle_time_sec sessionRedisConfig) 1800;
     maxLoginReturnTime := or_num (redis_max_login_return_time_sec sessionRedisConfig) 120;
     prefixSession := or_str (redis_key_prefix_name_max_life sessionRedisConfig) "session:";
     prefixSessionIdle := prefixIdle;
     prefixSessionIdleSize := String.length prefixIdle;
     sessionIdleValue := "empty";
     beforeDestroy := None |}.

(** [setFuncToCallBeforeDestroy(prom)] *)
Definition setFuncToCallBeforeDestroy (this : RedisSessionMgmt) (prom : hook)
  : RedisSessionMgmt :=
  {| maxLifetime := maxLifetime this;
     maxIdleTime := maxIdleTime this;
     maxLoginReturnTime := maxLoginReturnTime this;
     prefixSession := prefixSession this;
     prefixSessionIdle := prefixSessionIdle this;
     prefixSessionIdleSize := prefixSessionIdleSize this;
     sessionIdleValue := sessionIdleValue this;
     beforeDestroy := Some prom |}.

(** The configuration with no setting given: every default applies. *)
Definition no_settings : session_config := mkConfig None None None None None.

Section Methods.

Context {codec : JsonCodec}.
Variable this : RedisSessionMgmt.

(** [this.beforeDestroy(realm, accessToken, refreshToken)]: calling a field
    that was never assigned throws. *)
Definition call_beforeDestroy (realm accessToken refreshToken : value) : M unit :=
  match beforeDestroy this with
  | None => throw TypeError
  | Some prom =>
      fun w => (emit (EvHook realm accessToken refreshToken) w,
                prom realm accessToken refreshToken)
  end.

(** [async get(sid)] *)
Definition get (sid : string) : M value :=
  try_catch
    (let keyIdle := prefixSessionIdle this +:+ sid in
     let key := prefixSession this +:+ sid in
     await exist <- redisPub.get keyIdle;
     match exist with
     | Some _ =>
         await data <- redisPub.get key;
         await result <- eval (JSON_parse (to_text data));
         ret result
     | None => ret VNull
     end)
    (fun err => throw err).

(** [async set(sid, sess)] *)
Definition set (sid : string) (sess : value) : M unit :=
  try_catch
    (let val := JSON_stringify sess in
     await _ <- redisPub.set (prefixSession this +:+ sid) val;
     await _ <- redisPub.expire (prefixSession this +:+ sid) (maxLifetime this);
     await _ <- redisPub.set (prefixSessionIdle this +:+ sid) (sessionIdleValue this);
     await _ <- redisPub.expire (prefixSessionIdle this +:+ sid) (maxLoginReturnTime this);
     ret tt)
    (fun err => throw err).

(** [async destroy(sid)] *)
Definition destroy (sid : string) : M unit :=
  try_catch
    (await sess <- get sid;
     await accessToken <- eval (get_prop "accessToken" sess);
     await realm <- eval (get_prop "realm" sess);
     await refreshToken <- eval (get_prop "refreshToken" sess);
     await _ <- (if truthy accessToken && truthy realm && truthy refreshToken
                 then call_beforeDestroy realm accessToken refreshToken
                 else ret tt);
     await _ <- redisPub.del (prefixSession this +:+ sid);
     await _ <- redisPub.del (prefixSessionIdle this +:+ sid);
     ret tt)
    (fun err => throw err).

(** [async restartIdleTTL(sid)] *)
Definition restartIdleTTL (sid : string) : M unit :=
  try_catch
    (await _ <- redisPub.expire (prefixSessionIdle this +:+ sid) (maxIdleTime this);
     ret tt)
    (fun err => throw err).

(** [async onExpiration(channel, key)]: the handler of the subscriber's
    [message] event.  Whatever [destroy] throws is caught and not thrown
    again. *)
Definition onExpiration (channel key : string) : M unit :=
  try_catch
    (if String.eqb (substring 0 (prefixSessionIdleSize this) key) (prefixSessionIdle this)
     then
       let sid := slice (prefixSessionIdleSize this) key in
       await _ <- destroy sid;
       ret tt
     else ret tt)
    (fun err => ret tt).

End Methods.

(** ** An executable [JSON]

    Texts and values of the fragment with integer numbers and strings of
    characters below U+0100.  [stringify] writes what [JSON.stringify] writes
    for such a value (no white space, [undefined] items as [null],
    [undefined] properties left out); [parse] reads the JSON grammar
    restricted to that fragment, keeping properties in the order of the text
    and the last value of a repeated name. *)
Module MiniJson.

Local Open Scope char_scope.

Definition quote : ascii := "034".
Definition bslash : ascii := "092".

Definition hex_digit (n : N) : ascii :=
  ascii_of_N (if (n <? 10)%N then 48 + n else 87 + n)%N.

Definition esc (c : ascii) : string := String bslash (String c EmptyString).

Definition escape_char (c : ascii) : string :=
  if Ascii.eqb c quote then esc quote
  else if Ascii.eqb c bslash then esc bslash
  else if Ascii.eqb c "008" then esc "b"
  else if Ascii.eqb c "009" then esc "t"
  else if Ascii.eqb c "010" then esc "n"
  else if Ascii.eqb c "012" then esc "f"
  else if Ascii.eqb c "013" then esc "r"
  else if (N_of_ascii c <? 32)%N then
    String bslash
      ("u00" +:+ String (hex_digit (N_of_ascii c / 16))
                   (String (hex_digit (N_of_ascii c mod 16)) EmptyString))
  else String c EmptyString.

Fixpoint escape (s : string) : string :=
  match s with
  | EmptyString => EmptyString
  | String c r => escape_char c +:+ escape r
  end.

Definition quoted (s : string) : string :=
  String quote (escape s +:+ String quote EmptyString).

Fixpoint join (sep : string) (l : list string) : string :=
  match l with
  | [] => EmptyString
  | [x] => x
  | x :: rest => x +:+ sep +:+ join sep rest
  end.

Definition digits (n : Z) : string := NilZero.string_of_int (Z.to_int n).

Definition defined (v : value) : bool :=
  match v with
  | VUndefined => false
  | _ => true
  end.

Fixpoint stringify (v : value) : string :=
  match v with
  | VUndefined | VNull => "null"
  | VBool true => "true"
  | VBool false => "false"
  | VNum n => digits n
  | VStr s => quoted s
  | VArr items => "[" +:+ join "," (List.map stringify items) +:+ "]"
  | VObj props =>
      let members :=
        fix members (l : list (string * value)) : list string :=
          match l with
          | [] => []
          | (k, v) :: rest =>
              if defined v then (quoted k +:+ ":" +:+ stringify v) :: members rest
              else members rest
          end in
      "{" +:+ join "," (members props) +:+ "}"
  end.

(** *** Reading *)

Definition is_ws (c : ascii) : bool :=
  Ascii.eqb c " " || Ascii.eqb c "009" || Ascii.eqb c "010" || Ascii.eqb c "013".

Fixpoint skip_ws (s : string) : string :=
  match s with
  | String c r => if is_ws c then skip_ws r else s
  | EmptyString => s
  end.

Definition digit_of (c : ascii) : option Z :=
  let n := N_of_ascii c in
  if ((48 <=? n) && (n <=? 57))%N then Some (Z.of_N n - 48) else None.

Definition hex_of (c : ascii) : option N :=
  let n := N_of_ascii c in
  if ((48 <=? n) && (n <=? 57))%N then Some (n - 48)%N
  else if ((97 <=? n) && (n <=? 102))%N then Some (n - 87)%N
  else if ((65 <=? n) && (n <=? 70))%N then Some (n - 55)%N
  else None.

(** Digits after the first one. *)
Fixpoint read_digits (acc : Z) (s : string) : Z * string :=
  match s with
  | String c r =>
      match digit_of c with
      | Some d => read_digits (10 * acc + d) r
      | None => (acc, s)
      end
  | EmptyString => (acc, s)
  end.

(** [0], or a digit other than [0] followed by digits; a fraction or an
    exponent is outside the fragment. *)
Definition read_nat (s : string) : option (Z * string) :=
  match s with
  | String c r =>
      match digit_of c with
      | Some 0 => Some (0, r)
      | Some d => Some (read_digits d r)
      | None => None
      end
  | EmptyString => None
  end.

Definition outside_fragment (s : string) : bool :=
  match s with
  | String c _ =>
      Ascii.eqb c "." || Ascii.eqb c "e" || Ascii.eqb c "E"
      || (if digit_of c is Some _ then true else false)
  | EmptyString => false
  end.

Definition signed (sign : Z -> Z) (r : option (Z * string)) : option (Z * string) :=
  match r with
  | Some (n, rest) => if outside_fragment rest then None else Some (sign n, rest)
  | None => None
  end.

Definition read_number (s : string) : option (Z * string) :=
  match s with
  | String "-" r => signed Z.opp (read_nat r)
  | _ => signed (fun n => n) (read_nat s)
  end.

Definition unescape (c : ascii) : option ascii :=
  if Ascii.eqb c quote then Some quote
  else if Ascii.eqb c bslash then Some bslash
  else if Ascii.eqb c "/" then Some "/"
  else if Ascii.eqb c "b" then Some "008"
  else if Ascii.eqb c "t" then Some "009"
  else if Ascii.eqb c "n" then Some "010"
  else if Ascii.eqb c "f" then Some "012"
  else if Ascii.eqb c "r" then Some "013"
  else None.

(** The characters of a string up to its closing quote. *)
Fixpoint read_chars (s : string) : option (string * string) :=
  match s with
  | EmptyString => None
  | String c r =>
      if Ascii.eqb c quote then Some (EmptyString, r)
      else if Ascii.eqb c bslash then
        match r with
        | String "u" (String "0" (String "0" (String h (String l r')))) =>
            match hex_of h, hex_of l, read_chars r' with
            | Some a, Some b, Some (body, rest) =>
                Some (String (ascii_of_N (16 * a + b)) body, rest)
            | _, _, _ => None
            end
        | String e r' =>
            match unescape e, read_chars r' with
            | Some c', Some (body, rest) => Some (String c' body, rest)
            | _, _ => None
            end
        | EmptyString => None
        end
      else if (N_of_ascii c <? 32)%N then None
      else
        match read_chars r with
        | Some (body, rest) => Some (String c body, rest)
        | None => None
        end
  end.

Definition read_word (word : string) (v : value) (s : string) : option (value * string) :=
  if String.prefix word s then Some (v, slice (String.length word) s) else None.

(** A repeated name keeps its place and takes the later value. *)
Fixpoint put (k : string) (v : value) (props : list (string * value))
  : list (string * value) :=
  match props with
  | [] => [(k, v)]
  | (k', v') :: rest => if String.eqb k' k then (k', v) :: rest else (k', v') :: put k v rest
  end.

Fixpoint read_value (fuel : nat) (s : string) : option (value * string) :=
  match fuel with
  | O => None
  | S fuel' =>
      match skip_ws s with
      | String "n" _ as t => read_word "null" VNull t
      | String "t" _ as t => read_word "true" (VBool true) t
      | String "f" _ as t => read_word "false" (VBool false) t
      | String "[" r =>
          match skip_ws r with
          | String "]" r' => Some (VArr [], r')
          | _ => read_items fuel' r []
          end
      | String "{" r =>
          match skip_ws r with
          | String "}" r' => Some (VObj [], r')
          | _ => read_members fuel' r []
          end
      | String c r as t =>
          if Ascii.eqb c quote then
            match read_chars r with
            | Some (body, rest) => Some (VStr body, rest)
            | None => None
            end
          else
            match read_number t with
            | Some (n, rest) => Some (VNum n, rest)
            | None => None
            end
      | EmptyString => None
      end
  end
with read_items (fuel : nat) (s : string) (acc : list value) : option (value * string) :=
  match fuel with
  | O => None
  | S fuel' =>
      match read_value fuel' s with
      | Some (v, rest) =>
          match skip_ws rest with
          | String "," r => read_items fuel' r (acc ++ [v])
          | String "]" r => Some (VArr (acc ++ [v]), r)
          | _ => None
          end
      | None => None
      end
  end
with read_members (fuel : nat) (s : string) (acc : list (string * value))
  : option (value * string) :=
  match fuel with
  | O => None
  | S fuel' =>
      match skip_ws s with
      | String c r =>
          if Ascii.eqb c quote then
            match read_chars r with
            | Some (k, rest) =>
                match skip_ws rest with
                | String ":" r' =>
                    match read_value fuel' r' with
                    | Some (v, rest') =>
                        match skip_ws rest' with
                        | String "," r'' => read_members fuel' r'' (put k v acc)
                        | String "}" r'' => Some (VObj (put k v acc), r'')
                        | _ => None
                        end
                    | None => None
                    end
                | _ => None
                end
            | None => None
            end
          else None
      | EmptyString => None
      end
  end.

Definition parse (s : string) : result value :=
  match read_value (S (String.length s)) s with
  | Some (v, rest) =>
      match skip_ws rest with
      | EmptyString => Ok v
      | String _ _ => Throw SyntaxError
      end
  | None => Throw SyntaxError
  end.

(** *** The values that are written and read back *)

Fixpoint distinct (l : list string) : bool :=
  match l with
  | [] => true
  | k :: rest => negb (existsb (String.eqb k) rest) && distinct rest
  end.

(** No [undefined] inside, and no property name twice in an object. *)
Fixpoint serializable (v : value) : bool :=
  match v with
  | VUndefined => false
  | VNull | VBool _ | VNum _ | VStr _ => true
  | VArr items => forallb serializable items
  | VObj props =>
      distinct (List.map fst props)
      && (fix all (l : list (string * value)) : bool :=
            match l with
            | [] => true
            | (_, v) :: rest => serializable v && all rest
            end) props
  end.

(** The fuel that reading a value takes: one unit for the value and one more
    for each element of an array or of an object. *)
Fixpoint weight (v : value) : nat :=
  match v with
  | VArr items =>
      S ((fix weights (l : list value) : nat :=
            match l with
            | [] => O
            | x :: rest => S (weight x + weights rest)
            end) items)
  | VObj props =>
      S ((fix weights (l : list (string * value)) : nat :=
            match l with
            | [] => O
            | (_, x) :: rest => S (weight x + weights rest)
            end) props)
  | _ => 1
  end.

(** The next character does not continue a number. *)
Definition closes (rest : string) : bool :=
  match rest with
  | EmptyString => true
  | String c _ => Ascii.eqb c "," || Ascii.eqb c "]" || Ascii.eqb c "}"
  end%char.

(** The first character of a written value. *)
Definition opens (c : ascii) : bool :=
  (Ascii.eqb c "n" || Ascii.eqb c "t" || Ascii.eqb c "f" || Ascii.eqb c "["
   || Ascii.eqb c "{" || Ascii.eqb c quote || Ascii.eqb c "-"
   || (if digit_of c is Some _ then true else false))%char.

(** The inner loops of [weight], [stringify] and [serializable], by name. *)
Fixpoint weights (l : list value) : nat :=
  match l with
  | [] => O
  | x :: rest => S (weight x + weights rest)
  end.

Fixpoint member_weights (l : list (string * value)) : nat :=
  match l with
  | [] => O
  | (_, x) :: rest => S (weight x + member_weights rest)
  end.

Fixpoint members (l : list (string * value)) : list string :=
  match l with
  | [] => []
  | (k, v) :: rest =>
      if defined v then (quoted k +:+ ":" +:+ stringify v) :: members rest
      else members rest
  end.

Fixpoint all_serializable (l : list (string * value)) : bool :=
  match l with
  | [] => true
  | (_, v) :: rest => serializable v && all_serializable rest
  end.

(** Reading back the values of weight at most [n], with enough fuel and
    before any text that closes a value. *)
Definition reads_back (n : nat) : Prop :=
  forall v, (weight v <= n)%nat -> serializable v = true ->
  forall fuel rest, (weight v <= fuel)%nat -> closes rest = true ->
  read_value fuel (stringify v +:+ rest) = Some (v, rest).

(** The text of a value of weight at most [n] is at least as long as its
    weight: the fuel [parse] takes from the length of the text is enough. *)
Definition fits (n : nat) : Prop :=
  forall v, (weight v <= n)%nat -> serializable v = true ->
  (weight v <= String.length (stringify v))%nat.

End MiniJson.

(** At top level [JSON.stringify(undefined)] is not a text; the model writes
    the word [undefined], which [parse] rejects. *)
#[export] Instance mini_json : JsonCodec := {
  JSON_stringify v := if MiniJson.defined v then MiniJson.stringify v else "undefined";
  JSON_parse := MiniJson.parse
}.

(** ** Histories of calls *)

(** What can happen to a manager and its store: a call of one of its methods,
    a message delivered by the subscriber, or time passing. *)
Inductive call : Type :=
  | CallGet (sid : string)
  | CallSet (sid : string) (sess : value)
  | CallDestroy (sid : string)
  | CallRestartIdleTTL (sid : string)
  | CallSetFuncToCallBeforeDestroy (prom : hook)
  | Message (channel key : string)
  | Wait (seconds : Z).

Section Histories.

Context {codec : JsonCodec}.

Definition step (c : call) (st : RedisSessionMgmt * world) : RedisSessionMgmt * world :=
  let (this, w) := st in
  match c with
  | CallGet sid => (this, fst (get this sid w))
  | CallSet sid sess => (this, fst (set this sid sess w))
  | CallDestroy sid => (this, fst (destroy this sid w))
  | CallRestartIdleTTL sid => (this, fst (restartIdleTTL this sid w))
  | CallSetFuncToCallBeforeDestroy prom => (setFuncToCallBeforeDestroy this prom, w)
  | Message channel key => (this, fst (onExpiration this channel key w))
  | Wait seconds => (this, elapse seconds w)
  end.

Fixpoint run (cs : list call) (st : RedisSessionMgmt * world) : RedisSessionMgmt * world :=
  match cs with
  | [] => st
  | c :: rest => run rest (step c st)
  end.

End Histories.

Definition empty_world : world := {| store := ∅; trace := [] |}.

(** The managers a program can have: made by the constructor, a hook
    registered any number of times. *)
Inductive Built : RedisSessionMgmt -> Prop :=
  | Built_new (cfg : session_config) : Built (constructor cfg)
  | Built_hook (this : RedisSessionMgmt) (prom : hook) :
      Built this -> Built (setFuncToCallBeforeDestroy this prom).

(** Neither key prefix starts with the other one: then no record key is an
    idle-marker key, whatever the session ids. *)
Definition prefixes_apart (this : RedisSessionMgmt) : bool :=
  negb (String.prefix (prefixSession this) (prefixSessionIdle this))
  && negb (String.prefix (prefixSessionIdle this) (prefixSession this)).

(** The value bound to [k] by the destructuring of a value that is neither
    [null] nor [undefined]. *)
Definition field (k : string) (v : value) : value :=
  match get_prop k v with
  | Ok x => x
  | Throw _ => VUndefined
  end.

Definition nullish (v : value) : bool :=
  match v with
  | VUndefined | VNull => true
  | _ => false
  end.

(** The test of [destroy]: [accessToken && realm && refreshToken]. *)
Definition has_credentials (v : value) : bool :=
  truthy (field "accessToken" v) && truthy (field "realm" v)
  && truthy (field "refreshToken" v).

(** A field that is missing or holds a string, as the fields of a credential
    are; and such a field present and not empty. *)
Definition textual (x : value) : bool :=
  match x with
  | VUndefined | VStr _ => true
  | _ => false
  end.

Definition present_nonempty (x : value) : Prop := exists s, x = VStr s /\ s <> "".

(** The calls of the hook in a sequence of events, with their arguments. *)
Fixpoint hook_calls (evs : list event) : list (value * value * value) :=
  match evs with
  | [] => []
  | EvHook realm accessToken refreshToken :: rest =>
      (realm, accessToken, refreshToken) :: hook_calls rest
  | _ :: rest => hook_calls rest
  end.

(** The keys deleted in a sequence of events. *)
Fixpoint deleted_keys (evs : list event) : list string :=
  match evs with
  | [] => []
  | EvDel key :: rest => key :: deleted_keys rest
  | _ :: rest => deleted_keys rest
  end.

(** The calls that write key [k]: [set] for a session id one of whose two
    keys is [k]. *)
Definition writes (this : RedisSessionMgmt) (k : string) (c : call) : Prop :=
  match c with
  | CallSet sid _ => k = prefixSession this +:+ sid \/ k = prefixSessionIdle this +:+ sid
  | _ => False
  end.

(** The world after the two deletions that end a [destroy]. *)
Definition after_deletes (this : RedisSessionMgmt) (sid : string) (w : world) : world :=
  {| store := delete (prefixSessionIdle this +:+ sid)
                (delete (prefixSession this +:+ sid) (store w));
     trace := trace w ++ [EvDel (prefixSession this +:+ sid);
                          EvDel (prefixSessionIdle this +:+ sid)] |}.

(** What the hook step of [destroy] comes to on a session [v]: nothing to do
    without the three credentials, else the outcome of the call. *)
Definition hook_outcome (this : RedisSessionMgmt) (v : value) : result unit :=
  if has_credentials v then
    match beforeDestroy this with
    | None => Throw TypeError
    | Some prom => prom (field "realm" v) (field "accessToken" v) (field "refreshToken" v)
    end
  else Ok tt.

(** The seconds a history waits in all. *)
Fixpoint total_wait (cs : list call) : Z :=
  match cs with
  | [] => 0
  | Wait seconds :: rest => seconds + total_wait rest
  | _ :: rest => total_wait rest
  end.

(** The calls that change the time to live of key [k] without writing it:
    [restartIdleTTL] for a session id whose idle marker is [k]. *)
Definition refreshes (this : RedisSessionMgmt) (k : string) (c : call) : Prop :=
  match c with
  | CallRestartIdleTTL sid => k = prefixSessionIdle this +:+ sid
  | _ => False
  end.

(** Time does not run backwards in a history. *)
Definition forward (c : call) : Prop :=
  match c with
  | Wait seconds => 0 <= seconds
  | _ => True
  end.

(** An entry that will expire: it has a time to live, and a positive one. *)
Definition mortal (e : entry) : Prop := exists t, e_ttl e = Some t /\ 0 < t.

Definition all_mortal (s : gmap string entry) : Prop :=
  forall k e, s !! k = Some e -> mortal e.

(** An entry, when there is one, will expire within the [limit] seconds
    counted from [elapsed] seconds ago. *)
Definition capped (limit elapsed : Z) (o : option entry) : Prop :=
  match o with
  | None => True
  | Some e => exists t, e_ttl e = Some t /\ 0 < t /\ t + elapsed <= limit
  end.

(** A call of the hook all of whose arguments are truthy. *)
Definition credentialed (c : value * value * value) : Prop :=
  truthy c.1.1 = true /\ truthy c.1.2 = true /\ truthy c.2 = true.

(** A manager configured with one prefix for both keys. *)
Definition one_prefix : RedisSessionMgmt :=
  constructor (mkConfig None None None (Some "s:") (Some "s:")).

(** ** The device resolvers

    [Resolvers.Query] of [src/app/graphql/device/Resolvers.js].  What the
    file imports and the repository sources do not hold is taken as a
    parameter: the HTTP client [axios], [UTIL.optionsAxios] and [UTIL.GET] of
    [AxiosUtils], and [formatValueType] of [Helpers].  The module variable
    [paramsAxios.token] is threaded through the calls. *)

(** A synchronous computation that may throw. *)
Definition rbind {A B} (r : result A) (k : A -> result B) : result B :=
  match r with
  | Ok a => k a
  | Throw e => Throw e
  end.

Notation "'may' x <- r ; k" := (rbind r (fun x => k))
  (at level 10, x name, r at level 100, k at level 200).

(** [v === s] for a string literal [s]. *)
Definition is_string (s : string) (v : value) : bool :=
  match v with
  | VStr s' => String.eqb s' s
  | _ => false
  end.

(** [a || b] *)
Definition or_else (a b : value) : value := if truthy a then a else b.

(** ToString, as a template literal applies it. *)
Fixpoint to_string (v : value) : string :=
  match v with
  | VUndefined => "undefined"
  | VNull => "null"
  | VBool true => "true"
  | VBool false => "false"
  | VNum n => MiniJson.digits n
  | VStr s => s
  | VArr items =>
      MiniJson.join ","
        (List.map (fun x => match x with
                            | VUndefined | VNull => ""
                            | _ => to_string x
                            end) items)
  | VObj _ => "[object Object]"
  end.

(** [Object.keys(o).map(key => o[key])]: the values of the own properties
    of [o] in the order of its keys (an object lists each property once);
    [Object.keys] throws on [null] and [undefined]. *)
Definition own_values (o : value) : result (list value) :=
  match o with
  | VUndefined | VNull => Throw TypeError
  | VObj props => Ok (List.map snd props)
  | VArr items => Ok items
  | VStr s => Ok (List.map (fun c => VStr (String c EmptyString)) (list_ascii_of_string s))
  | VBool _ | VNum _ => Ok []
  end.

(** The elements [x.forEach] visits: only an array has [forEach]. *)
Definition elements (x : value) : result (list value) :=
  match x with
  | VArr items => Ok items
  | _ => Throw TypeError
  end.

(** [items.forEach(f)] for a callback that updates [acc] or throws. *)
Fixpoint forEach {S : Type} (f : value -> S -> result S) (items : list value) (acc : S)
  : result S :=
  match items with
  | [] => Ok acc
  | x :: rest => may acc' <- f x acc; forEach f rest acc'
  end.

(** [o[k] = v] for a name that is not an array index: a new property comes
    last, an old one keeps its place. *)
Fixpoint set_prop (k : string) (v : value) (props : list (string * value))
  : list (string * value) :=
  match props with
  | [] => [(k, v)]
  | (k', v') :: rest =>
      if String.eqb k' k then (k', v) :: rest else (k', v') :: set_prop k v rest
  end.

(** [keys[keys.length - 1]] *)
Definition last_key (keys : list string) : option string := List.last (List.map Some keys) None.

Section Resolvers.

Variable axios : value -> result value.
Variable UTIL_optionsAxios : value -> string -> value -> value.
Variable UTIL_GET : value.
Variable formatValueType : value -> result value.

(** [optionsAxios(method, url)] with the token that [setToken] stored. *)
Definition optionsAxios (paramsAxios_token : value) (method : value) (url : string) : value :=
  UTIL_optionsAxios method url paramsAxios_token.

(** The object pushed for an attribute. *)
Definition attribute (attr : value) : result value :=
  may label <- get_prop "label" attr;
  may value_type <- get_prop "value_type" attr;
  may valueType <- formatValueType value_type;
  may type <- get_prop "type" attr;
  may static_value <- get_prop "static_value" attr;
  Ok (VObj [("label", label); ("valueType", valueType);
            ("isDynamic", VBool (is_string "dynamic" type));
            ("staticValue", static_value)]).

(** The callback of [getDeviceById] on one attribute: only a dynamic one is
    pushed. *)
Definition push_dynamic (attr : value) (attrs : list value) : result (list value) :=
  may type <- get_prop "type" attr;
  if negb (is_string "dynamic" type) then Ok attrs
  else may pushed <- attribute attr; Ok (attrs ++ [pushed])%list.

(** The callback of [getDevices] on one attribute: a dynamic one or one of
    value type [geo:point] is pushed. *)
Definition push_dynamic_or_geo (attr : value) (attrs : list value) : result (list value) :=
  may type <- get_prop "type" attr;
  may value_type <- get_prop "value_type" attr;
  if negb (is_string "dynamic" type) && negb (is_string "geo:point" value_type)
  then Ok attrs
  else may pushed <- attribute attr; Ok (attrs ++ [pushed])%list.

(** [Object.keys(attrs).forEach((key) => attrs[key].forEach(callback))] *)
Definition each_template (callback : value -> list value -> result (list value))
    (attrs : value) (acc : list value) : result (list value) :=
  may lists <- own_values attrs;
  forEach (fun list acc => may items <- elements list; forEach callback items acc) lists acc.

(** What [getDeviceById] makes of the response. *)
Definition device_of_response (response : value) : result value :=
  may deviceData <- get_prop "data" response;
  may id <- get_prop "id" deviceData;
  may label <- get_prop "label" deviceData;
  may attrs <- get_prop "attrs" deviceData;
  may collected <- each_template push_dynamic attrs [];
  Ok (VObj [("id", id); ("label", label); ("attrs", VArr collected)]).

(** [async getDeviceById(root, { deviceId }, context)]: the new token and
    the outcome. *)
Definition getDeviceById (root args context : value) (paramsAxios_token : value)
  : value * result value :=
  match get_prop "deviceId" args with
  | Throw e => (paramsAxios_token, Throw e)
  | Ok deviceId =>
      match get_prop "token" context with
      | Throw e => (paramsAxios_token, Throw e)
      | Ok token =>
          (token,
           may response <- axios (optionsAxios token UTIL_GET
                                    ("/device/" +:+ to_string deviceId));
           device_of_response response)
      end
  end.

(** The request string of [getDevices]: the parameters are collected in an
    object, then written key by key, an [&] after each but the last. *)
Definition request_parameters (params : value) : result (list (string * value)) :=
  may page <- get_prop "page" params;
  may paged <-
    (if truthy page then
       may size <- get_prop "size" page;
       may number <- get_prop "number" page;
       Ok (set_prop "page_num" (if truthy number then number else VNum 1)
             (set_prop "page_size" (if truthy size then size else VNum 20) []))
     else Ok []);
  may filter <- get_prop "filter" params;
  may filtered <-
    (if truthy filter then
       may label <- get_prop "label" filter;
       Ok (if truthy label then set_prop "label" label paged else paged)
     else Ok paged);
  may sortBy <- get_prop "sortBy" params;
  Ok (set_prop "sortBy" (or_else sortBy (VStr "label")) filtered).

Definition write_parameters (requestParameters : list (string * value)) : string :=
  let keys := List.map fst requestParameters in
  let last := last_key keys in
  fold_left
    (fun requestString element =>
       if (if last is Some l then String.eqb element l else false)
       then requestString +:+ element +:+ "=" +:+ to_string (assoc element requestParameters)
       else requestString +:+ element +:+ "=" +:+ to_string (assoc element requestParameters)
                          +:+ "&")
    keys "/device?".

(** The callback of [getDevices] on one fetched device. *)
Definition push_device (device : value) (devices : list value) : result (list value) :=
  may attrs <- get_prop "attrs" device;
  may attributes <-
    (if truthy attrs then each_template push_dynamic_or_geo attrs [] else Ok []);
  may id <- get_prop "id" device;
  may label <- get_prop "label" device;
  Ok (devices ++ [VObj [("id", id); ("label", label); ("attrs", VArr attributes)]])%list.

(** What [getDevices] makes of the response. *)
Definition devices_of_response (response : value) : result value :=
  may fetchedData <- get_prop "data" response;
  may fetched <- get_prop "devices" fetchedData;
  may items <- elements fetched;
  may devices <- forEach push_device items [];
  may pagination <- get_prop "pagination" fetchedData;
  may total <- get_prop "total" pagination;
  may page <- get_prop "page" pagination;
  Ok (VObj [("totalPages", total); ("currentPage", page); ("devices", VArr devices)]).

(** [async getDevices(root, params, context)] *)
Definition getDevices (root params context : value) (paramsAxios_token : value)
  : value * result value :=
  match get_prop "token" context with
  | Throw e => (paramsAxios_token, Throw e)
  | Ok token =>
      (token,
       may requestParameters <- request_parameters params;
       let requestString := write_parameters requestParameters in
       may response <- axios (optionsAxios token UTIL_GET requestString);
       devices_of_response response)
  end.

End Resolvers.

(** *** What the resolvers return, in closed form *)

(** The attributes of all templates of a device, in the order they are
    visited. *)
Definition listed (attrs : value) : list value :=
  match own_values attrs with
  | Ok lists =>
      concat (List.map (fun list => match list with
                                    | VArr items => items
                                    | _ => []
                                    end) lists)
  | Throw _ => []
  end.

(** Every template holds an array, and no attribute in it is [null] or
    [undefined]. *)
Definition templates_ok (attrs : value) : bool :=
  match own_values attrs with
  | Ok lists =>
      forallb (fun list => match list with
                           | VArr items => forallb (fun attr => negb (nullish attr)) items
                           | _ => false
                           end) lists
  | Throw _ => false
  end.

Definition dynamic (attr : value) : bool := is_string "dynamic" (field "type" attr).

Definition dynamic_or_geo (attr : value) : bool :=
  dynamic attr || is_string "geo:point" (field "value_type" attr).

(** The object returned for an attribute, for a [formatValueType] that
    returns [fmt]. *)
Definition shown (fmt : value -> value) (attr : value) : value :=
  VObj [("label", field "label" attr);
        ("valueType", fmt (field "value_type" attr));
        ("isDynamic", VBool (dynamic attr));
        ("staticValue", field "static_value" attr)].

(** A fetched device that [getDevices] can process, and what it returns
    for it. *)
Definition device_ok (device : value) : bool :=
  negb (nullish device)
  && (negb (truthy (field "attrs" device)) || templates_ok (field "attrs" device)).

Definition shown_device (fmt : value -> value) (device : value) : value :=
  VObj [("id", field "id" device);
        ("label", field "label" device);
        ("attrs",
         VArr (if truthy (field "attrs" device)
               then List.map (shown fmt)
                      (List.filter dynamic_or_geo (listed (field "attrs" device)))
               else []))].

(** The request string in one piece. *)
Definition request_string_of (params : value) : string :=
  let page := field "page" params in
  let filter := field "filter" params in
  "/device?"
  +:+ (if truthy page
       then "page_size=" +:+ to_string (or_else (field "size" page) (VNum 20))
            +:+ "&page_num=" +:+ to_string (or_else (field "number" page) (VNum 1))
            +:+ "&"
       else "")
  +:+ (if truthy filter && truthy (field "label" filter)
       then "label=" +:+ to_string (field "label" filter) +:+ "&"
       else "")
  +:+ "sortBy=" +:+ to_string (or_else (field "sortBy" params) (VStr "label")).

(** *** Sample data for the resolvers *)

Definition sample_format (v : value) : value := VObj [("name", v)].

Definition sample_attr (label type value_type : string) : value :=
  VObj [("label", VStr label); ("type", VStr type); ("value_type", VStr value_type);
        ("static_value", VNum 3)].

(** A device with one dynamic attribute, one static position and one other
    static attribute, in two templates. *)
Definition sample_device : value :=
  VObj [("id", VStr "d1"); ("label", VStr "thermometer");
        ("attrs",
         VObj [("1", VArr [sample_attr "temperature" "dynamic" "integer";
                           sample_attr "position" "static" "geo:point"]);
               ("2", VArr [sample_attr "serial" "static" "string"])])].

(** A device without attributes. *)
Definition bare_device : value := VObj [("id", VStr "d2"); ("label", VStr "bare")].

Definition sample_devices_response : value :=
  VObj [("data",
         VObj [("devices", VArr [sample_device; bare_device]);
               ("pagination", VObj [("total", VNum 1); ("page", VNum 1)])])].

Definition sample_options (method : value) (url : string) (token : value) : value :=
  VObj [("method", method); ("url", VStr url); ("token", token)].

(** A client that answers every request with the two devices. *)
Definition sample_axios (options : value) : result value := Ok sample_devices_response.

Definition sample_params : value :=
  VObj [("page", VObj [("number", VNum 3)]); ("filter", VObj [("label", VStr "thermo")])].

Definition sample_context : value := VObj [("token", VStr "tk")].

(** ** Sample data *)

Definition creds1 : value :=
  VObj [("accessToken", VStr "tok1"); ("realm", VStr "master"); ("refreshToken", VStr "ref1")].

Definition accept : hook := fun _ _ _ => Ok tt.
Definition reject : hook := fun _ _ _ => Throw (Thrown (VStr "logout failed")).

Definition mgmt0 : RedisSessionMgmt := constructor no_settings.

(** The default manager with a hook that resolves, and with one that
    rejects. *)
Definition this1 : RedisSessionMgmt := setFuncToCallBeforeDestroy mgmt0 accept.
Definition this2 : RedisSessionMgmt := setFuncToCallBeforeDestroy mgmt0 reject.

(** The store after [set("u1", creds1)] on the empty store. *)
Definition world1 : world := fst (set this1 "u1" creds1 empty_world).

(** The same 121 seconds later: the idle marker has expired. *)
Definition world2 : world := elapse 121 world1.

(** A store with an idle marker and no record. *)
Definition world3 : world := fst (redisPub.set "session-idle:u1" "empty" empty_world).

(** The channel of expired-key messages of database 0. *)
Definition expired_channel : string := "__keyevent@0__:expired".

(** * Properties *)

(** ** Strings *)

Lemma app_nil_l (b : string) : "" +:+ b = b.
Proof. reflexivity. Qed.

Lemma app_cons (c : ascii) (a b : string) : String c a +:+ b = String c (a +:+ b).
Proof. reflexivity. Qed.

Lemma string_length_app (a b : string) :
  String.length (a +:+ b) = (String.length a + String.length b)%nat.
Proof.
  induction a as [|c a IH]; [reflexivity|].
  rewrite app_cons. simpl. by rewrite IH.
Qed.

(** Two keys for one session id differ as soon as their prefixes do. *)
Lemma app_inj_r (a b s : string) : a +:+ s = b +:+ s -> a = b.
Proof.
  revert b. induction a as [|c a IH]; intros [|d b] H.
  - reflexivity.
  - apply (f_equal String.length) in H. rewrite !string_length_app in H. simpl in H. lia.
  - apply (f_equal String.length) in H. rewrite !string_length_app in H. simpl in H. lia.
  - rewrite !app_cons in H. injection H as -> H. f_equal. by apply IH.
Qed.

Lemma substring_app (p s : string) : substring 0 (String.length p) (p +:+ s) = p.
Proof.
  induction p as [|c p IH].
  - simpl. by destruct s.
  - rewrite app_cons. simpl. by rewrite IH.
Qed.

Lemma slice_app (p s : string) : slice (String.length p) (p +:+ s) = s.
Proof.
  induction p as [|c p IH]; [reflexivity|].
  rewrite app_cons. simpl. exact IH.
Qed.

Lemma substring_slice (n : nat) (key : string) :
  substring 0 n key +:+ slice n key = key.
Proof.
  revert key. induction n as [|n IH]; intros [|c key]; try reflexivity.
  simpl. rewrite app_cons. by rewrite IH.
Qed.

(** A key starts with [p] exactly when [substring] finds [p] at its head, and
    then [slice] gives the rest. *)
Lemma starts_with_iff (p key : string) :
  substring 0 (String.length p) key = p <-> exists sid, key = p +:+ sid.
Proof.
  split.
  - intros H. exists (slice (String.length p) key).
    rewrite <- H at 1. symmetry. apply substring_slice.
  - intros [sid ->]. apply substring_app.
Qed.

Lemma prefix_app (a b s s' : string) :
  a +:+ s = b +:+ s' -> String.prefix a b = true \/ String.prefix b a = true.
Proof.
  revert b. induction a as [|c a IH]; intros b H.
  - left. by destruct b.
  - destruct b as [|d b]; [by right|].
    rewrite !app_cons in H. injection H as -> H.
    simpl. destruct (IH b H) as [Hp|Hp]; rewrite Hp; destruct (ascii_dec d d); auto; congruence.
Qed.

Lemma apart_keys (this : RedisSessionMgmt) (s s' : string) :
  prefixes_apart this = true ->
  prefixSession this +:+ s <> prefixSessionIdle this +:+ s'.
Proof.
  unfold prefixes_apart. intros Hap Heq.
  apply andb_prop in Hap as [H1 H2].
  destruct (prefix_app _ _ _ _ Heq) as [H|H]; rewrite H in *; discriminate.
Qed.

(** ** The executable [JSON] reads back what it writes *)

Module MiniJsonFacts.
Import MiniJson.

Lemma app_assoc_s (a b c : string) : (a +:+ b) +:+ c = a +:+ (b +:+ c).
Proof.
  induction a as [|x a IH]; [reflexivity|].
  rewrite !app_cons. by rewrite IH.
Qed.

Lemma closes_digit (rest : string) :
  closes rest = true ->
  outside_fragment rest = false
  /\ forall acc, read_digits acc rest = (acc, rest).
Proof.
  destruct rest as [|c rest]; [done|]. simpl. intros H.
  apply orb_prop in H as [H|H]; [apply orb_prop in H as [H|H]|];
    apply Ascii.eqb_eq in H; subst c; by vm_compute.
Qed.

Lemma read_digits_uint (u : Decimal.uint) (acc : positive) (rest : string) :
  closes rest = true ->
  read_digits (Z.pos acc) (NilEmpty.string_of_uint u +:+ rest)
  = (Z.pos (Pos.of_uint_acc u acc), rest).
Proof.
  intros Hrest. revert acc.
  induction u as [|u IH|u IH|u IH|u IH|u IH|u IH|u IH|u IH|u IH|u IH]; intros acc;
    simpl NilEmpty.string_of_uint; rewrite ?app_cons, ?app_nil_l.
  - simpl. by apply closes_digit.
  - simpl. rewrite <- IH. f_equal; lia.
  - simpl. rewrite <- IH. f_equal; lia.
  - simpl. rewrite <- IH. f_equal; lia.
  - simpl. rewrite <- IH. f_equal; lia.
  - simpl. rewrite <- IH. f_equal; lia.
  - simpl. rewrite <- IH. f_equal; lia.
  - simpl. rewrite <- IH. f_equal; lia.
  - simpl. rewrite <- IH. f_equal; lia.
  - simpl. rewrite <- IH. f_equal; lia.
  - simpl. rewrite <- IH. f_equal; lia.
Qed.

(** The decimal writing of a positive number has no leading zero. *)
Lemma to_uint_head (p : positive) :
  Pos.to_uint p <> Decimal.Nil /\ forall u, Pos.to_uint p <> Decimal.D0 u.
Proof.
  split; [apply Unsigned.to_uint_nonnil|]. intros u Hu.
  pose proof (Unsigned.to_of (Pos.to_uint p)) as Hnorm.
  rewrite Unsigned.of_to in Hnorm. simpl in Hnorm.
  rewrite Hu in Hnorm. rewrite unorm_D0 in Hnorm.
  unfold Decimal.unorm in Hnorm.
  destruct (Decimal.nzhead u) eqn:Hnz; try discriminate.
  - injection Hnorm as ->. by apply (Unsigned.to_uint_nonzero p).
  - by apply (nzhead_nonzero u u0).
Qed.

Lemma read_number_digits (n : Z) (rest : string) :
  closes rest = true -> read_number (digits n +:+ rest) = Some (n, rest).
Proof.
  intros Hrest. destruct (closes_digit rest Hrest) as [Hout Hdig].
  assert (forall p, exists c r,
            NilZero.string_of_uint (Pos.to_uint p) +:+ rest = String c r
            /\ c <> "-"%char
            /\ read_nat (String c r) = Some (Z.pos p, rest)) as Hpos.
  { intros p. destruct (to_uint_head p) as [Hnil Hzero].
    pose proof (Unsigned.of_to p) as Hp.
    destruct (Pos.to_uint p) as [|u|u|u|u|u|u|u|u|u|u]; try done;
      [by destruct (Hzero u)|..];
      unfold NilZero.string_of_uint; simpl NilEmpty.string_of_uint;
      rewrite app_cons; eexists _, _; (split; [reflexivity|]);
      (split; [discriminate|]);
      unfold read_nat; simpl digit_of; cbv iota beta;
      simpl in Hp; injection Hp as <-;
      f_equal; apply (read_digits_uint u _ rest Hrest). }
  destruct n as [|p|p]; unfold digits; simpl Z.to_int; unfold NilZero.string_of_int.
  - change (NilZero.string_of_uint (Decimal.D0 Decimal.Nil)) with "0".
    rewrite app_cons, app_nil_l. unfold read_number, read_nat, signed. simpl.
    by rewrite Hout.
  - destruct (Hpos p) as (c & r & -> & Hc & Hread).
    assert (read_number (String c r) = signed (fun n => n) (read_nat (String c r))) as ->.
    { unfold read_number. destruct c as [[] [] [] [] [] [] [] []]; done. }
    rewrite Hread. unfold signed. by rewrite Hout.
  - rewrite app_cons. destruct (Hpos p) as (c & r & -> & Hc & Hread).
    unfold read_number. rewrite Hread. unfold signed. by rewrite Hout.
Qed.

(** One written character is read back as itself. *)
Lemma read_chars_escape_char (c : ascii) (tail body rest : string) :
  read_chars tail = Some (body, rest) ->
  read_chars (escape_char c +:+ tail) = Some (String c body, rest).
Proof.
  intros H.
  destruct c as [[] [] [] [] [] [] [] []];
    unfold escape_char, String.append; simpl; by rewrite H.
Qed.

Lemma read_chars_escape (s rest : string) :
  read_chars (escape s +:+ String quote rest) = Some (s, rest).
Proof.
  induction s as [|c s IH].
  - reflexivity.
  - simpl escape. rewrite app_assoc_s. by apply read_chars_escape_char.
Qed.

Lemma read_chars_quoted (s rest : string) :
  exists tail, quoted s +:+ rest = String quote tail
               /\ read_chars tail = Some (s, rest).
Proof.
  exists (escape s +:+ String quote rest). split.
  - unfold quoted. by rewrite app_cons, app_assoc_s.
  - apply read_chars_escape.
Qed.

Lemma digits_head (n : Z) : exists c tail, digits n = String c tail /\ opens c = true.
Proof.
  destruct n as [|p|p]; unfold digits; simpl Z.to_int; unfold NilZero.string_of_int.
  - by eexists _, _.
  - destruct (to_uint_head p) as [Hnil _].
    destruct (Pos.to_uint p); try done; by eexists _, _.
  - by eexists _, _.
Qed.

Lemma stringify_head (v : value) :
  exists c tail, stringify v = String c tail /\ opens c = true.
Proof.
  destruct v as [| |[]|n|s|items|props]; try (by eexists _, _).
  apply digits_head.
Qed.

Lemma read_value_number (fuel : nat) (s : string) (n : Z) (rest : string) :
  read_number s = Some (n, rest) -> read_value (S fuel) s = Some (VNum n, rest).
Proof.
  destruct s as [|c r]; [done|]. intros H.
  destruct c as [[] [] [] [] [] [] [] []];
    simpl in H |- *; try discriminate H; by rewrite H.
Qed.

Lemma weight_arr (items : list value) : weight (VArr items) = S (weights items).
Proof. reflexivity. Qed.

Lemma weight_obj (props : list (string * value)) : weight (VObj props) = S (member_weights props).
Proof. reflexivity. Qed.

Lemma stringify_obj (props : list (string * value)) :
  stringify (VObj props) = "{" +:+ join "," (members props) +:+ "}".
Proof. reflexivity. Qed.

Lemma serializable_obj (props : list (string * value)) :
  serializable (VObj props) = distinct (List.map fst props) && all_serializable props.
Proof. reflexivity. Qed.

Lemma weight_pos (v : value) : (1 <= weight v)%nat.
Proof. destruct v; simpl; lia. Qed.

Lemma read_items_eq (fuel : nat) (s : string) (acc : list value) :
  read_items (S fuel) s acc =
    match read_value fuel s with
    | Some (v, rest) =>
        match skip_ws rest with
        | String ","%char r => read_items fuel r (acc ++ [v])
        | String "]"%char r => Some (VArr (acc ++ [v]), r)
        | _ => None
        end
    | None => None
    end.
Proof. reflexivity. Qed.

Lemma read_members_eq (fuel : nat) (tail : string) (acc : list (string * value)) :
  read_members (S fuel) (String quote tail) acc =
    match read_chars tail with
    | Some (k, rest) =>
        match skip_ws rest with
        | String ":"%char r' =>
            match read_value fuel r' with
            | Some (v, rest') =>
                match skip_ws rest' with
                | String ","%char r'' => read_members fuel r'' (put k v acc)
                | String "}"%char r'' => Some (VObj (put k v acc), r'')
                | _ => None
                end
            | None => None
            end
        | _ => None
        end
    | None => None
    end.
Proof. reflexivity. Qed.

Lemma read_items_comma (fuel : nat) (s t : string) (acc : list value) (v : value) :
  read_value fuel s = Some (v, "," +:+ t) ->
  read_items (S fuel) s acc = read_items fuel t (acc ++ [v]).
Proof. intros H. by rewrite read_items_eq, H. Qed.

Lemma read_items_close (fuel : nat) (s t : string) (acc : list value) (v : value) :
  read_value fuel s = Some (v, "]" +:+ t) ->
  read_items (S fuel) s acc = Some (VArr (acc ++ [v]), t).
Proof. intros H. by rewrite read_items_eq, H. Qed.

Lemma read_members_comma
    (fuel : nat) (k s t : string) (acc : list (string * value)) (v : value) :
  read_value fuel s = Some (v, "," +:+ t) ->
  read_members (S fuel) (quoted k +:+ ":" +:+ s) acc = read_members fuel t (put k v acc).
Proof.
  intros H. destruct (read_chars_quoted k (":" +:+ s)) as (tail & -> & Hk).
  rewrite read_members_eq, Hk.
  change (skip_ws (":" +:+ s)) with (String ":"%char s). cbv iota beta.
  by rewrite H.
Qed.

Lemma read_members_close
    (fuel : nat) (k s t : string) (acc : list (string * value)) (v : value) :
  read_value fuel s = Some (v, "}" +:+ t) ->
  read_members (S fuel) (quoted k +:+ ":" +:+ s) acc = Some (VObj (put k v acc), t).
Proof.
  intros H. destruct (read_chars_quoted k (":" +:+ s)) as (tail & -> & Hk).
  rewrite read_members_eq, Hk.
  change (skip_ws (":" +:+ s)) with (String ":"%char s). cbv iota beta.
  by rewrite H.
Qed.

Lemma join_cons2 (sep x y : string) (l : list string) :
  join sep (x :: y :: l) = x +:+ sep +:+ join sep (y :: l).
Proof. reflexivity. Qed.

Lemma read_items_join (n : nat) (items : list value) :
  reads_back n ->
  forall acc fuel rest,
    items <> [] ->
    (forall x, In x items -> (weight x <= n)%nat) ->
    forallb serializable items = true ->
    (weights items <= fuel)%nat ->
    read_items fuel (join "," (List.map stringify items) +:+ "]" +:+ rest) acc
    = Some (VArr (acc ++ items), rest).
Proof.
  intros IHn. induction items as [|x items IH]; intros acc fuel rest Hne Hsz Hser Hfuel;
    [done|].
  simpl in Hser. apply andb_prop in Hser as [Hx Hitems].
  simpl in Hfuel. destruct fuel as [|fuel]; [lia|].
  assert (weight x <= n)%nat as Hxn by (apply Hsz; by left).
  destruct items as [|y items].
  - apply read_items_close. apply IHn; done || lia.
  - rewrite !map_cons, join_cons2, !app_assoc_s.
    rewrite (read_items_comma fuel _
               (join "," (List.map stringify (y :: items)) +:+ "]" +:+ rest) acc x).
    + rewrite IH; [|done|intros; apply Hsz; by right|done|simpl in *; lia].
      by rewrite <- app_assoc.
    + apply IHn; done || lia.
Qed.

Lemma put_fresh (k : string) (v : value) (acc : list (string * value)) :
  existsb (String.eqb k) (List.map fst acc) = false -> put k v acc = (acc ++ [(k, v)])%list.
Proof.
  induction acc as [|[k' v'] acc IH]; [done|]. simpl. intros H.
  apply orb_false_elim in H as [Hk Hacc].
  rewrite String.eqb_sym, Hk. by rewrite IH.
Qed.

Lemma distinct_app_cons (k : string) (l1 l2 : list string) :
  distinct (l1 ++ k :: l2) = true ->
  existsb (String.eqb k) l1 = false /\ distinct ((l1 ++ [k]) ++ l2) = true.
Proof.
  intros H. rewrite <- app_assoc. split; [|exact H].
  induction l1 as [|x l1 IH]; [done|].
  simpl in H. apply andb_prop in H as [Hx Hrest].
  simpl. rewrite (IH Hrest), orb_false_r.
  apply negb_true_iff in Hx. rewrite existsb_app in Hx.
  apply orb_false_elim in Hx as [_ Hx]. simpl in Hx.
  apply orb_false_elim in Hx as [Hx _]. by rewrite String.eqb_sym.
Qed.

Lemma read_members_join (n : nat) (props : list (string * value)) :
  reads_back n ->
  forall acc fuel rest,
    props <> [] ->
    (forall k x, In (k, x) props -> (weight x <= n)%nat) ->
    all_serializable props = true ->
    distinct (List.map fst (acc ++ props)) = true ->
    (member_weights props <= fuel)%nat ->
    read_members fuel (join "," (members props) +:+ "}" +:+ rest) acc
    = Some (VObj (acc ++ props), rest).
Proof.
  intros IHn. induction props as [|[k x] props IH];
    intros acc fuel rest Hne Hsz Hser Hdis Hfuel; [done|].
  simpl in Hser. apply andb_prop in Hser as [Hx Hprops].
  simpl in Hfuel. destruct fuel as [|fuel]; [lia|].
  assert (weight x <= n)%nat as Hxn by (apply (Hsz k); by left).
  assert (defined x = true) as Hdef by (by destruct x).
  rewrite List.map_app in Hdis. simpl in Hdis.
  apply distinct_app_cons in Hdis as [Hfresh Hdis].
  simpl members. rewrite Hdef.
  destruct props as [|[k' y] props].
  - simpl members. simpl join. rewrite !app_assoc_s.
    rewrite (read_members_close fuel k _ rest acc x).
    + by rewrite put_fresh.
    + apply IHn; done || lia.
  - assert (defined y = true) as Hdefy.
    { simpl in Hprops. apply andb_prop in Hprops as [Hy _]. by destruct y. }
    assert (members ((k', y) :: props)
            = (quoted k' +:+ ":" +:+ stringify y) :: members props) as Hm.
    { simpl. by rewrite Hdefy. }
    rewrite Hm, join_cons2, <- Hm, !app_assoc_s.
    rewrite (read_members_comma fuel k _
               (join "," (members ((k', y) :: props)) +:+ "}" +:+ rest) acc x).
    + rewrite put_fresh by done.
      rewrite IH; [|done|intros ? ? ?; eapply Hsz; by right|done| |simpl in *; lia].
      * by rewrite <- app_assoc.
      * by rewrite List.map_app, List.map_app.
    + apply IHn; done || lia.
Qed.

Lemma weights_bound (items : list value) (x : value) :
  In x items -> (weight x < weights items)%nat.
Proof.
  induction items as [|y items IH]; [done|]. intros [->|Hin]; simpl; [lia|].
  specialize (IH Hin). lia.
Qed.

Lemma member_weights_bound (props : list (string * value)) (k : string) (x : value) :
  In (k, x) props -> (weight x < member_weights props)%nat.
Proof.
  induction props as [|[k' y] props IH]; [done|]. intros [[= -> ->]|Hin]; simpl; [lia|].
  specialize (IH Hin). lia.
Qed.

(** A value opens with a character that is neither white space nor a closing
    bracket, so the reader of an array or of an object goes on to its
    elements. *)
Lemma read_value_arr (fuel : nat) (c : ascii) (tail : string) :
  opens c = true ->
  read_value (S fuel) (String "[" (String c tail)) = read_items fuel (String c tail) [].
Proof.
  intros Hc. destruct c as [[] [] [] [] [] [] [] []]; try discriminate Hc; reflexivity.
Qed.

Lemma read_value_obj (fuel : nat) (tail : string) :
  read_value (S fuel) (String "{" (String quote tail))
  = read_members fuel (String quote tail) [].
Proof. reflexivity. Qed.

Lemma join_head (x : string) (l : list string) (c : ascii) (tail : string) :
  x = String c tail -> exists tail', join "," (x :: l) = String c tail'.
Proof.
  intros ->. destruct l as [|y l]; [by eexists|].
  rewrite join_cons2, app_cons. by eexists.
Qed.

Theorem reads_back_all (n : nat) : reads_back n.
Proof.
  induction n as [|n IHn]; intros v Hn Hser fuel rest Hfuel Hrest.
  { pose proof (weight_pos v). lia. }
  destruct fuel as [|fuel]; [pose proof (weight_pos v); lia|].
  destruct v as [| |[]|m|s|items|props]; try discriminate Hser.
  - by destruct rest.
  - by destruct rest.
  - by destruct rest.
  - apply read_value_number. by apply read_number_digits.
  - simpl stringify. destruct (read_chars_quoted s rest) as (tail & -> & Hs).
    simpl. by rewrite Hs.
  - rewrite weight_arr in Hn, Hfuel. simpl in Hser.
    destruct items as [|x items]; [reflexivity|].
    change (stringify (VArr (x :: items)))
      with ("[" +:+ join "," (List.map stringify (x :: items)) +:+ "]").
    rewrite !app_assoc_s, app_cons, app_nil_l.
    destruct (stringify_head x) as (c & tail & Hx & Hc).
    destruct (join_head (stringify x) (List.map stringify items) c tail Hx) as [tail' Hj].
    rewrite map_cons, Hj, app_cons, (read_value_arr fuel c _ Hc).
    rewrite <- app_cons, <- Hj, <- map_cons.
    apply (read_items_join n (x :: items) IHn []); [done| |done|lia].
    intros y Hy. pose proof (weights_bound _ _ Hy). lia.
  - rewrite weight_obj in Hn, Hfuel. rewrite serializable_obj in Hser.
    apply andb_prop in Hser as [Hdis Hall].
    destruct props as [|[k x] props]; [reflexivity|].
    rewrite stringify_obj, !app_assoc_s, app_cons, app_nil_l.
    assert (defined x = true) as Hdef.
    { simpl in Hall. apply andb_prop in Hall as [Hx _]. by destruct x. }
    assert (exists tail', join "," (members ((k, x) :: props)) = String quote tail')
      as [tail' Hj].
    { simpl members. rewrite Hdef. eapply join_head. unfold quoted.
      by rewrite app_cons. }
    rewrite Hj, app_cons, read_value_obj.
    rewrite <- app_cons, <- Hj.
    apply (read_members_join n ((k, x) :: props) IHn []); [done| |done|done|lia].
    intros k' y Hy. pose proof (member_weights_bound _ _ _ Hy). lia.
Qed.

Lemma app_nil_r_s (a : string) : a +:+ "" = a.
Proof. induction a as [|c a IH]; [done|]. by rewrite app_cons, IH. Qed.

Lemma weights_join (n : nat) (items : list value) :
  fits n ->
  (forall x, In x items -> (weight x <= n)%nat) ->
  forallb serializable items = true ->
  (weights items <= S (String.length (join "," (List.map stringify items))))%nat.
Proof.
  intros IHn. induction items as [|x items IH]; intros Hsz Hser; [simpl; lia|].
  simpl in Hser. apply andb_prop in Hser as [Hx Hitems].
  assert (weight x <= String.length (stringify x))%nat as Hlen.
  { apply IHn; [|done]. apply Hsz. by left. }
  destruct items as [|y items].
  - simpl. lia.
  - rewrite !map_cons, join_cons2, !string_length_app. rewrite <- map_cons.
    assert (weights (y :: items)
            <= S (String.length (join "," (List.map stringify (y :: items)))))%nat as Hrest.
    { apply IH; [|done]. intros; apply Hsz. by right. }
    change (weights (x :: y :: items)) with (S (weight x + weights (y :: items))).
    simpl String.length at 2. lia.
Qed.

Lemma member_weights_join (n : nat) (props : list (string * value)) :
  fits n ->
  (forall k x, In (k, x) props -> (weight x <= n)%nat) ->
  all_serializable props = true ->
  (member_weights props <= S (String.length (join "," (members props))))%nat.
Proof.
  intros IHn. induction props as [|[k x] props IH]; intros Hsz Hser; [simpl; lia|].
  simpl in Hser. apply andb_prop in Hser as [Hx Hprops].
  assert (weight x <= String.length (stringify x))%nat as Hlen.
  { apply IHn; [|done]. apply (Hsz k). by left. }
  assert (defined x = true) as Hdef by (by destruct x).
  assert (member_weights props <= S (String.length (join "," (members props))))%nat as Hrest.
  { apply IH; [|done]. intros ? ? ?; eapply Hsz. by right. }
  simpl members. rewrite Hdef.
  change (member_weights ((k, x) :: props)) with (S (weight x + member_weights props)).
  destruct (members props) as [|m ms] eqn:Hm.
  - simpl join in *. rewrite !string_length_app. simpl in Hrest.
    change (String.length ":") with 1%nat. lia.
  - rewrite join_cons2, !string_length_app.
    change (String.length ":") with 1%nat. change (String.length ",") with 1%nat. lia.
Qed.

Lemma fits_all (n : nat) : fits n.
Proof.
  induction n as [|n IHn]; intros v Hn Hser.
  { pose proof (weight_pos v). lia. }
  destruct v as [| |[]|m|s|items|props]; try discriminate Hser; try (simpl; lia).
  - destruct (digits_head m) as (c & tail & Hm & _). simpl. rewrite Hm. simpl. lia.
  - rewrite weight_arr in *. simpl in Hser.
    change (stringify (VArr items))
      with ("[" +:+ join "," (List.map stringify items) +:+ "]").
    rewrite !string_length_app. simpl String.length at 1 3.
    pose proof (weights_join n items IHn) as H.
    assert (weights items <= S (String.length (join "," (List.map stringify items))))%nat.
    { apply H; [|done]. intros x Hx. pose proof (weights_bound _ _ Hx). lia. }
    lia.
  - rewrite weight_obj in *. rewrite serializable_obj in Hser.
    apply andb_prop in Hser as [_ Hall].
    rewrite stringify_obj, !string_length_app. simpl String.length at 1 3.
    assert (member_weights props <= S (String.length (join "," (members props))))%nat.
    { apply (member_weights_join n props IHn); [|done].
      intros k x Hx. pose proof (member_weights_bound _ _ _ Hx). lia. }
    lia.
Qed.

(** Reading what was written gives the value back. *)
Theorem parse_stringify (v : value) :
  serializable v = true -> parse (stringify v) = Ok v.
Proof.
  intros Hser. unfold parse.
  pose proof (reads_back_all (weight v) v (le_n _) Hser
                (S (String.length (stringify v))) "") as H.
  rewrite app_nil_r_s in H. rewrite H; [done| |done].
  pose proof (fits_all (weight v) v (le_n _) Hser). lia.
Qed.

End MiniJsonFacts.

(** [JSON.parse(JSON.stringify(v))] is [v] for the executable [JSON]. *)
Lemma mini_json_round_trip (v : value) :
  MiniJson.serializable v = true -> JSON_parse (JSON_stringify v) = Ok v.
Proof.
  intros Hser. simpl.
  assert (MiniJson.defined v = true) as -> by (by destruct v).
  by apply MiniJsonFacts.parse_stringify.
Qed.

(** ** The methods, call by call *)

Section MethodFacts.

Context {codec : JsonCodec}.
Variable this : RedisSessionMgmt.

Abbreviation key sid := (prefixSession this +:+ sid).
Abbreviation keyIdle sid := (prefixSessionIdle this +:+ sid).

(** A handler that throws what it caught changes nothing. *)
Lemma try_rethrow {A} (body : M A) (w : world) :
  try_catch body (fun err => throw err) w = body w.
Proof. unfold try_catch, throw. by destruct (body w) as [w' [a|e]]. Qed.

Lemma get_absent (sid : string) (w : world) :
  store w !! keyIdle sid = None ->
  get this sid w = (emit (EvGet (keyIdle sid)) w, Ok VNull).
Proof.
  intros H. unfold get. rewrite try_rethrow.
  unfold bind, redisPub.get, ret. simpl. by rewrite H.
Qed.

Lemma get_present (sid : string) (w : world) (e : entry) :
  store w !! keyIdle sid = Some e ->
  get this sid w =
    (emit (EvGet (key sid)) (emit (EvGet (keyIdle sid)) w),
     JSON_parse (to_text (e_value <$> store w !! key sid))).
Proof.
  intros H. unfold get. rewrite try_rethrow.
  unfold bind, redisPub.get, ret, eval. simpl. rewrite H. simpl.
  by destruct (JSON_parse _).
Qed.

(** [get] only reads. *)
Lemma get_store (sid : string) (w : world) : store (fst (get this sid w)) = store w.
Proof.
  destruct (store w !! keyIdle sid) as [e|] eqn:H.
  - by rewrite (get_present _ _ _ H).
  - by rewrite (get_absent _ _ H).
Qed.

Lemma get_prop_field (k : string) (v : value) :
  nullish v = false -> get_prop k v = Ok (field k v).
Proof. unfold field. by destruct v. Qed.

(** [destroy] on a session that [get] returns. *)
Lemma destroy_readable (sid : string) (w w1 : world) (v : value) :
  get this sid w = (w1, Ok v) ->
  nullish v = false ->
  destroy this sid w =
    let realm := field "realm" v in
    let accessToken := field "accessToken" v in
    let refreshToken := field "refreshToken" v in
    if has_credentials v then
      match beforeDestroy this with
      | None => (w1, Throw TypeError)
      | Some prom =>
          let w2 := emit (EvHook realm accessToken refreshToken) w1 in
          match prom realm accessToken refreshToken with
          | Ok _ => (after_deletes this sid w2, Ok tt)
          | Throw e => (w2, Throw e)
          end
      end
    else (after_deletes this sid w1, Ok tt).
Proof.
  intros Hget Hv. unfold destroy. rewrite try_rethrow.
  unfold bind at 1. rewrite Hget.
  unfold bind at 1, eval at 1. rewrite (get_prop_field "accessToken" v Hv).
  unfold bind at 1, eval at 1. rewrite (get_prop_field "realm" v Hv).
  unfold bind at 1, eval at 1. rewrite (get_prop_field "refreshToken" v Hv).
  cbv zeta. unfold has_credentials.
  destruct (truthy (field "accessToken" v) && truthy (field "realm" v)
            && truthy (field "refreshToken" v)).
  - unfold bind at 1, call_beforeDestroy. destruct (beforeDestroy this) as [prom|].
    + destruct (prom _ _ _) as [[]|e]; [|reflexivity].
      unfold bind, redisPub.del, ret, after_deletes, emit, with_store. simpl.
      by rewrite <- !app_assoc.
    + reflexivity.
  - unfold bind, redisPub.del, ret, after_deletes, emit, with_store. simpl.
    by rewrite <- !app_assoc.
Qed.

(** [destroy] on a session that [get] does not return: the destructuring
    of [null] throws before anything is deleted. *)
Lemma destroy_null (sid : string) (w w1 : world) :
  get this sid w = (w1, Ok VNull) ->
  destroy this sid w = (w1, Throw TypeError).
Proof.
  intros Hget. unfold destroy. rewrite try_rethrow.
  unfold bind at 1. by rewrite Hget.
Qed.

Lemma destroy_get_throws (sid : string) (w w1 : world) (e : error) :
  get this sid w = (w1, Throw e) -> destroy this sid w = (w1, Throw e).
Proof.
  intros Hget. unfold destroy. rewrite try_rethrow.
  unfold bind at 1. by rewrite Hget.
Qed.

Lemma after_deletes_lookup (sid : string) (w : world) :
  store (after_deletes this sid w) !! key sid = None
  /\ store (after_deletes this sid w) !! keyIdle sid = None.
Proof.
  unfold after_deletes. simpl. split.
  - destruct (decide (keyIdle sid = key sid)) as [->|Hne].
    + apply lookup_delete_eq.
    + rewrite lookup_delete_ne by done. apply lookup_delete_eq.
  - apply lookup_delete_eq.
Qed.

End MethodFacts.

(** ** What the constructor establishes *)

Lemma Built_size (this : RedisSessionMgmt) :
  Built this -> prefixSessionIdleSize this = String.length (prefixSessionIdle this).
Proof. induction 1; auto. Qed.

Lemma Built_idle_value (this : RedisSessionMgmt) :
  Built this -> sessionIdleValue this = "empty".
Proof. induction 1; auto. Qed.

Lemma or_str_nonempty (x : option string) (d : string) : d <> "" -> or_str x d <> "".
Proof.
  intros Hd. unfold or_str. destruct x as [s|]; [|done].
  destruct (String.eqb_spec s ""); done.
Qed.

Lemma Built_prefixes_nonempty (this : RedisSessionMgmt) :
  Built this -> prefixSession this <> "" /\ prefixSessionIdle this <> "".
Proof. induction 1; [|done]. split; by apply or_str_nonempty. Qed.

(** ** Store commands and keys that are not theirs *)

Section StoreFacts.

Context {codec : JsonCodec}.
Variable this : RedisSessionMgmt.

Abbreviation key sid := (prefixSession this +:+ sid).
Abbreviation keyIdle sid := (prefixSessionIdle this +:+ sid).

Lemma expire_other (k k' : string) (seconds : Z) (w : world) :
  k <> k' -> store (fst (redisPub.expire k' seconds w)) !! k = store w !! k.
Proof.
  intros Hne. unfold redisPub.expire.
  destruct (store w !! k') as [e|]; [|done]. simpl.
  destruct (seconds <=? 0).
  - by rewrite lookup_delete_ne.
  - by rewrite lookup_insert_ne.
Qed.

Lemma expire_absent (k k' : string) (seconds : Z) (w : world) :
  store w !! k = None -> store (fst (redisPub.expire k' seconds w)) !! k = None.
Proof.
  intros Hk. destruct (decide (k = k')) as [->|Hne].
  - unfold redisPub.expire. by rewrite Hk.
  - by rewrite expire_other.
Qed.

(** The store after [set], when both times to live are positive. *)
Lemma set_store (sid : string) (sess : value) (w : world) :
  0 < maxLifetime this -> 0 < maxLoginReturnTime this ->
  store (fst (set this sid sess w)) =
    <[keyIdle sid := mkEntry (sessionIdleValue this) (Some (maxLoginReturnTime this))]>
      (<[key sid := mkEntry (JSON_stringify sess) (Some (maxLifetime this))]> (store w)).
Proof.
  intros Hlife Hlogin. unfold set. rewrite try_rethrow.
  unfold bind, redisPub.set, redisPub.expire, ret. simpl.
  rewrite lookup_insert_eq. simpl.
  destruct (Z.leb_spec (maxLifetime this) 0) as [?|_]; [lia|].
  rewrite lookup_insert_eq. simpl.
  destruct (Z.leb_spec (maxLoginReturnTime this) 0) as [?|_]; [lia|].
  by rewrite !insert_insert_eq.
Qed.

(** The commands [set] sends, whatever the configuration. *)
Lemma set_trace (sid : string) (sess : value) (w : world) :
  snd (set this sid sess w) = Ok tt
  /\ trace (fst (set this sid sess w)) =
       (trace w ++ [EvSet (key sid) (JSON_stringify sess);
                    EvExpire (key sid) (maxLifetime this);
                    EvSet (keyIdle sid) (sessionIdleValue this);
                    EvExpire (keyIdle sid) (maxLoginReturnTime this)])%list.
Proof.
  unfold set. rewrite try_rethrow.
  unfold bind, redisPub.set, redisPub.expire, ret. simpl.
  rewrite lookup_insert_eq. simpl. rewrite lookup_insert_eq. simpl.
  by rewrite <- !app_assoc.
Qed.

Lemma set_other (sid k : string) (sess : value) (w : world) :
  k <> key sid -> k <> keyIdle sid ->
  store (fst (set this sid sess w)) !! k = store w !! k.
Proof.
  intros Hk Hi. unfold set. rewrite try_rethrow.
  unfold bind, redisPub.set, redisPub.expire, ret. simpl.
  rewrite lookup_insert_eq. simpl. rewrite lookup_insert_eq. simpl.
  destruct (maxLifetime this <=? 0), (maxLoginReturnTime this <=? 0);
    repeat first [rewrite lookup_delete_ne by done | rewrite lookup_insert_ne by done];
    reflexivity.
Qed.

(** [restartIdleTTL] is one [expire] of the idle marker. *)
Lemma restartIdleTTL_run (sid : string) (w : world) :
  restartIdleTTL this sid w =
    (fst (redisPub.expire (keyIdle sid) (maxIdleTime this) w), Ok tt).
Proof.
  unfold restartIdleTTL. rewrite try_rethrow.
  unfold bind, ret, redisPub.expire.
  by destruct (store w !! keyIdle sid).
Qed.

(** Whatever [destroy] does, the store afterwards is the one before or the
    one with both keys deleted. *)
Lemma destroy_store (sid : string) (w : world) :
  store (fst (destroy this sid w)) = store w
  \/ store (fst (destroy this sid w)) = delete (keyIdle sid) (delete (key sid) (store w)).
Proof.
  pose proof (get_store this sid w) as Hst.
  destruct (get this sid w) as [w1 [v|e]] eqn:Hget; simpl in Hst.
  - destruct (nullish v) eqn:Hv.
    + left. unfold destroy. rewrite try_rethrow. unfold bind at 1. rewrite Hget.
      by destruct v.
    + rewrite (destroy_readable this sid w w1 v Hget Hv). cbv zeta.
      destruct (has_credentials v); [destruct (beforeDestroy this) as [prom|];
        [destruct (prom _ _ _) as [[]|]|]|]; simpl; rewrite Hst; auto.
  - left. by rewrite (destroy_get_throws this sid w w1 e Hget).
Qed.

(** [destroy] always sends at least the read of the idle marker. *)
Lemma destroy_first_event (sid : string) (w : world) :
  exists rest,
    trace (fst (destroy this sid w)) = (trace w ++ EvGet (keyIdle sid) :: rest)%list.
Proof.
  destruct (store w !! keyIdle sid) as [e|] eqn:Hidle.
  - pose proof (get_present this sid w e Hidle) as Hget.
    destruct (JSON_parse _) as [v|err].
    + destruct (nullish v) eqn:Hv.
      * exists [EvGet (key sid)]. unfold destroy. rewrite try_rethrow.
        unfold bind at 1. rewrite Hget.
        destruct v; try discriminate; simpl; by rewrite <- app_assoc.
      * rewrite (destroy_readable this sid w _ v Hget Hv). cbv zeta.
        destruct (has_credentials v); [destruct (beforeDestroy this) as [prom|];
          [destruct (prom _ _ _) as [[]|]|]|]; simpl;
          rewrite <- ?app_assoc; simpl; eauto.
    + rewrite (destroy_get_throws this sid w _ err Hget). simpl.
      rewrite <- app_assoc. eauto.
  - rewrite (destroy_null this sid w _ (get_absent this sid w Hidle)). simpl. eauto.
Qed.

Lemma survivors_absent (d : Z) (s : gmap string entry) (k : string) :
  s !! k = None -> survivors d s !! k = None.
Proof.
  intros Hk. unfold survivors. rewrite lookup_fmap.
  by rewrite map_lookup_filter, Hk.
Qed.

End StoreFacts.

(** ** Histories: a key nobody writes stays absent *)

Section HistoryFacts.

Context {codec : JsonCodec}.

Lemma step_prefixes (c : call) (this : RedisSessionMgmt) (w : world) :
  prefixSession (fst (step c (this, w))) = prefixSession this
  /\ prefixSessionIdle (fst (step c (this, w))) = prefixSessionIdle this.
Proof. by destruct c. Qed.

Lemma onExpiration_store (this : RedisSessionMgmt) (channel k : string) (w : world) :
  store (fst (onExpiration this channel k w)) = store w
  \/ exists sid, store (fst (onExpiration this channel k w)) = store (fst (destroy this sid w)).
Proof.
  unfold onExpiration, try_catch.
  destruct (String.eqb _ _); [|by left].
  right. exists (slice (prefixSessionIdleSize this) k).
  unfold bind, ret. by destruct (destroy this _ w) as [w' [[]|e]].
Qed.

Lemma step_absent (c : call) (this : RedisSessionMgmt) (w : world) (k : string) :
  ~ writes this k c ->
  store w !! k = None ->
  store (snd (step c (this, w))) !! k = None.
Proof.
  intros Hc Hk. destruct c as [sid|sid sess|sid|sid|prom|channel k'|d]; simpl.
  - by rewrite get_store.
  - simpl in Hc. rewrite set_other; [done|tauto..].
  - destruct (destroy_store this sid w) as [->| ->]; [done|].
    by rewrite !lookup_delete_None; auto.
  - rewrite restartIdleTTL_run. simpl. by apply expire_absent.
  - done.
  - destruct (onExpiration_store this channel k' w) as [->|[sid ->]]; [done|].
    destruct (destroy_store this sid w) as [->| ->]; [done|].
    by rewrite !lookup_delete_None; auto.
  - by apply survivors_absent.
Qed.

Lemma run_absent (cs : list call) (this : RedisSessionMgmt) (w : world) (k : string) :
  (forall c, c ∈ cs -> ~ writes this k c) ->
  store w !! k = None ->
  store (snd (run cs (this, w))) !! k = None
  /\ prefixSession (fst (run cs (this, w))) = prefixSession this
  /\ prefixSessionIdle (fst (run cs (this, w))) = prefixSessionIdle this.
Proof.
  revert this w. induction cs as [|c cs IH]; intros this w Hcs Hk; [done|].
  change (run (c :: cs) (this, w)) with (run cs (step c (this, w))).
  destruct (step c (this, w)) as [this' w'] eqn:Hstep.
  destruct (step_prefixes c this w) as [Hp Hi]. rewrite Hstep in Hp, Hi. simpl in Hp, Hi.
  assert (store w' !! k = None) as Hk'.
  { pose proof (step_absent c this w k) as H. rewrite Hstep in H. apply H; [|done].
    apply Hcs. by left. }
  destruct (IH this' w') as (H1 & H2 & H3); [|done|].
  - intros c' Hin Hw. apply (Hcs c'); [by right|].
    destruct c'; try done. simpl in *. by rewrite <- Hp, <- Hi.
  - by rewrite H2, H3.
Qed.

End HistoryFacts.

(** ** Events *)

Lemma hook_calls_app (l1 l2 : list event) :
  hook_calls (l1 ++ l2) = (hook_calls l1 ++ hook_calls l2)%list.
Proof.
  induction l1 as [|[] l1 IH]; simpl; try done. by rewrite IH.
Qed.

(** For fields that are strings, truthy means not empty; a field that is
    missing is falsy. *)
Lemma truthy_string (s : string) : truthy (VStr s) = true <-> s <> "".
Proof. simpl. destruct (String.eqb_spec s ""); simpl; split; congruence. Qed.

Lemma field_missing (k : string) (props : list (string * value)) :
  assoc k props = VUndefined -> truthy (field k (VObj props)) = false.
Proof. unfold field. simpl. by intros ->. Qed.

Lemma textual_truthy (x : value) :
  textual x = true -> (truthy x = true <-> present_nonempty x).
Proof.
  unfold present_nonempty. destruct x; try discriminate; intros _.
  - simpl. split; [discriminate|]. by intros (s & Hs & _).
  - rewrite truthy_string. split.
    + intros Hs. by exists s.
    + by intros (s' & [= <-] & Hs).
Qed.

(** * The session store *)

Section SessionStore.

Context {codec : JsonCodec}.
Variable this : RedisSessionMgmt.

Abbreviation key sid := (prefixSession this +:+ sid).
Abbreviation keyIdle sid := (prefixSessionIdle this +:+ sid).

(** A session that [get] returns had its idle marker in the store, and [get]
    sent its two reads. *)
Lemma get_readable (sid : string) (w w1 : world) (v : value) :
  get this sid w = (w1, Ok v) ->
  nullish v = false ->
  w1 = emit (EvGet (key sid)) (emit (EvGet (keyIdle sid)) w).
Proof.
  intros Hget Hv. destruct (store w !! keyIdle sid) as [e|] eqn:Hidle.
  - rewrite (get_present this sid w e Hidle) in Hget. congruence.
  - rewrite (get_absent this sid w Hidle) in Hget.
    injection Hget as _ <-. discriminate.
Qed.

(** C2.  On a session that [get] returns, [destroy] calls the registered hook
    exactly when [accessToken], [realm] and [refreshToken] pass the test of
    the code, which for fields that are strings or missing is: all three are
    present and not empty.  The call is made once, with
    [(realm, accessToken, refreshToken)] in this order, after the two reads
    and before any deletion: the deletions, when they are sent, are the last
    two commands. *)
Theorem destroy_hook_iff_credentials
    (sid : string) (w w1 : world) (v : value) (prom : hook) :
  beforeDestroy this = Some prom ->
  get this sid w = (w1, Ok v) ->
  nullish v = false ->
  let realm := field "realm" v in
  let accessToken := field "accessToken" v in
  let refreshToken := field "refreshToken" v in
  let w' := fst (destroy this sid w) in
  exists dels,
    trace w' =
      (trace w ++ [EvGet (keyIdle sid); EvGet (key sid)]
         ++ (if has_credentials v then [EvHook realm accessToken refreshToken] else [])
         ++ dels)%list
    /\ (dels = [] \/ dels = [EvDel (key sid); EvDel (keyIdle sid)])
    /\ hook_calls (trace w') =
         (hook_calls (trace w)
            ++ if has_credentials v then [(realm, accessToken, refreshToken)] else [])%list
    /\ (textual accessToken = true -> textual realm = true -> textual refreshToken = true ->
        (has_credentials v = true <->
         present_nonempty accessToken /\ present_nonempty realm
         /\ present_nonempty refreshToken)).
Proof.
  intros Hhook Hget Hv. cbv zeta.
  rewrite (destroy_readable this sid w w1 v Hget Hv). cbv zeta.
  rewrite (get_readable sid w w1 v Hget Hv), Hhook.
  assert (textual (field "accessToken" v) = true -> textual (field "realm" v) = true ->
          textual (field "refreshToken" v) = true ->
          (has_credentials v = true <->
           present_nonempty (field "accessToken" v) /\ present_nonempty (field "realm" v)
           /\ present_nonempty (field "refreshToken" v))) as Htext.
  { intros Ha Hr Ht. unfold has_credentials. rewrite !andb_true_iff.
    rewrite !textual_truthy by done. tauto. }
  destruct (has_credentials v).
  - destruct (prom _ _ _) as [[]|e].
    + exists [EvDel (key sid); EvDel (keyIdle sid)]. simpl.
      rewrite <- !app_assoc. simpl. split; [done|]. split; [by right|].
      split; [|exact Htext]. by rewrite hook_calls_app.
    + exists []. simpl. rewrite <- !app_assoc. simpl. split; [done|]. split; [by left|].
      split; [|exact Htext]. by rewrite hook_calls_app.
  - exists [EvDel (key sid); EvDel (keyIdle sid)]. simpl.
    rewrite <- !app_assoc. simpl. split; [done|]. split; [by right|].
    split; [|exact Htext]. rewrite hook_calls_app. simpl. by rewrite app_nil_r.
Qed.

(** C3, as the code has it.  On a session that [get] returns, [destroy]
    deletes the record key and the idle-marker key, as its last two commands,
    when the hook step does not fail (no call to make, or the call resolves);
    when the call rejects, [destroy] throws what the hook threw and the store
    is as it was: neither key is deleted. *)
Theorem destroy_deletes_unless_hook_fails
    (sid : string) (w w1 : world) (v : value) :
  get this sid w = (w1, Ok v) ->
  nullish v = false ->
  let w' := fst (destroy this sid w) in
  match hook_outcome this v with
  | Ok _ =>
      snd (destroy this sid w) = Ok tt
      /\ store w' !! key sid = None
      /\ store w' !! keyIdle sid = None
      /\ exists before, trace w' = (before ++ [EvDel (key sid); EvDel (keyIdle sid)])%list
  | Throw e =>
      snd (destroy this sid w) = Throw e
      /\ store w' = store w
      /\ deleted_keys (trace w') = deleted_keys (trace w)
  end.
Proof.
  intros Hget Hv. cbv zeta.
  rewrite (destroy_readable this sid w w1 v Hget Hv). cbv zeta.
  pose proof (get_readable sid w w1 v Hget Hv) as Hw1.
  unfold hook_outcome. destruct (has_credentials v).
  - destruct (beforeDestroy this) as [prom|].
    + destruct (prom _ _ _) as [[]|e]; simpl.
      * split; [done|]. destruct (after_deletes_lookup this sid
          (emit (EvHook (field "realm" v) (field "accessToken" v) (field "refreshToken" v)) w1))
          as [H1 H2].
        split; [exact H1|]. split; [exact H2|]. eauto.
      * subst w1. simpl. split; [done|]. split; [done|].
        rewrite <- !app_assoc. simpl.
        induction (trace w) as [|[] l IH]; simpl; congruence.
    + subst w1. simpl. split; [done|]. split; [done|].
      rewrite <- !app_assoc. simpl.
      induction (trace w) as [|[] l IH]; simpl; congruence.
  - simpl. split; [done|].
    destruct (after_deletes_lookup this sid w1) as [H1 H2].
    split; [exact H1|]. split; [exact H2|]. eauto.
Qed.

(** What [get] returns right after [set]: the parsed text of the payload. *)
Lemma set_then_get (sid : string) (data : value) (w : world) :
  prefixSession this <> prefixSessionIdle this ->
  0 < maxLifetime this ->
  0 < maxLoginReturnTime this ->
  snd (get this sid (fst (set this sid data w))) = JSON_parse (JSON_stringify data).
Proof.
  intros Hpre Hlife Hlogin.
  assert (keyIdle sid <> key sid) as Hne.
  { intros Heq. apply Hpre. symmetry. by apply (app_inj_r _ _ sid). }
  pose proof (set_store this sid data w Hlife Hlogin) as Hst.
  rewrite (get_present this sid _ (mkEntry (sessionIdleValue this)
                                     (Some (maxLoginReturnTime this)))).
  - simpl. by rewrite Hst, lookup_insert_ne, lookup_insert_eq.
  - by rewrite Hst, lookup_insert_eq.
Qed.

(** C4.  With distinct key prefixes and positive times to live, [set]
    succeeds and a [get] that follows it returns the payload, for every
    payload that survives [JSON.parse(JSON.stringify(data))]. *)
Theorem get_after_set (sid : string) (data : value) (w : world) :
  prefixSession this <> prefixSessionIdle this ->
  0 < maxLifetime this ->
  0 < maxLoginReturnTime this ->
  JSON_parse (JSON_stringify data) = Ok data ->
  snd (set this sid data w) = Ok tt
  /\ snd (get this sid (fst (set this sid data w))) = Ok data.
Proof.
  intros Hpre Hlife Hlogin Hdata.
  split; [apply set_trace|].
  by rewrite set_then_get.
Qed.

(** C5.  [get] reads the idle marker first.  Without it, that read is the
    only command sent and the result is [null], not an error; with it, the
    record is read next and parsed.  After any history of calls, messages and
    waiting from the empty store that has no [set] for [sid], [get(sid)]
    returns [null] (record keys and idle-marker keys being apart). *)
Theorem get_checks_idle_marker_first (sid : string) (w : world) :
  get this sid w =
    match store w !! keyIdle sid with
    | None => (emit (EvGet (keyIdle sid)) w, Ok VNull)
    | Some _ =>
        (emit (EvGet (key sid)) (emit (EvGet (keyIdle sid)) w),
         JSON_parse (to_text (e_value <$> store w !! key sid)))
    end
  /\ forall cs : list call,
       prefixes_apart this = true ->
       (forall sess, CallSet sid sess ∉ cs) ->
       snd (get (fst (run cs (this, empty_world))) sid (snd (run cs (this, empty_world))))
         = Ok VNull.
Proof.
  split.
  - destruct (store w !! keyIdle sid) as [e|] eqn:Hidle.
    + apply (get_present this sid w e Hidle).
    + apply (get_absent this sid w Hidle).
  - intros cs Hapart Hcs.
    destruct (run_absent cs this empty_world (keyIdle sid)) as (Hk & Hp & Hi).
    + intros c Hin Hw. destruct c as [|sid' sess| | | | |]; try done.
      simpl in Hw. destruct Hw as [Hw|Hw].
      * symmetry in Hw. by apply apart_keys in Hw.
      * apply (String.app_inj _) in Hw. subst sid'. by apply (Hcs sess).
    + done.
    + rewrite get_absent; [done|]. by rewrite Hi.
Qed.

End SessionStore.

(** With the executable [JSON], the payloads of C4 include every value
    without [undefined] and without a repeated property name. *)
Lemma get_after_set_mini_json
    (this : RedisSessionMgmt) (sid : string) (data : value) (w : world) :
  prefixSession this <> prefixSessionIdle this ->
  0 < maxLifetime this ->
  0 < maxLoginReturnTime this ->
  MiniJson.serializable data = true ->
  snd (get this sid (fst (set this sid data w))) = Ok data.
Proof.
  intros Hpre Hlife Hlogin Hser.
  rewrite set_then_get by done. by apply mini_json_round_trip.
Qed.

(** * The expiration listener *)

Section Listener.

Context {codec : JsonCodec}.
Variable this : RedisSessionMgmt.

Abbreviation key sid := (prefixSession this +:+ sid).
Abbreviation keyIdle sid := (prefixSessionIdle this +:+ sid).

Lemma onExpiration_match (channel sid : string) (w : world) :
  Built this ->
  onExpiration this channel (keyIdle sid) w = (fst (destroy this sid w), Ok tt).
Proof.
  intros HB. unfold onExpiration, try_catch.
  rewrite (Built_size this HB), substring_app, String.eqb_refl, slice_app.
  unfold bind, ret. by destruct (destroy this sid w) as [w' [[]|e]].
Qed.

Lemma onExpiration_no_match (channel k : string) (w : world) :
  Built this ->
  (forall sid, k <> keyIdle sid) ->
  onExpiration this channel k w = (w, Ok tt).
Proof.
  intros HB Hk. unfold onExpiration, try_catch.
  rewrite (Built_size this HB).
  destruct (String.eqb_spec (substring 0 (String.length (prefixSessionIdle this)) k)
              (prefixSessionIdle this)) as [Heq|_]; [|done].
  apply starts_with_iff in Heq as [sid ->]. by destruct (Hk sid).
Qed.

(** The message for an idle marker that is gone, as every expired one is:
    [destroy] throws on the [null] that [get] returns, the listener swallows
    the error, and nothing is deleted. *)
Lemma onExpiration_marker_gone (channel sid : string) (w : world) :
  Built this ->
  store w !! keyIdle sid = None ->
  onExpiration this channel (keyIdle sid) w = (emit (EvGet (keyIdle sid)) w, Ok tt).
Proof.
  intros HB Hidle. rewrite (onExpiration_match channel sid w HB).
  by rewrite (destroy_null this sid w _ (get_absent this sid w Hidle)).
Qed.

(** C6.  A message for key [k] makes the listener run [destroy] exactly when
    [k] is the idle-marker prefix followed by some [sid], and then for that
    [sid] (an error of [destroy] being swallowed); for any other key the
    listener does nothing at all.  A record key is such another key when the
    two prefixes are apart. *)
Theorem onExpiration_filters_idle_keys (channel k : string) (w : world) :
  Built this ->
  (forall sid, k = keyIdle sid ->
     onExpiration this channel k w = (fst (destroy this sid w), Ok tt))
  /\ (forall sid, fst (onExpiration this channel k w) = fst (destroy this sid w) ->
       k = keyIdle sid)
  /\ ((forall sid, k <> keyIdle sid) -> onExpiration this channel k w = (w, Ok tt))
  /\ (prefixes_apart this = true ->
      forall sid, onExpiration this channel (key sid) w = (w, Ok tt)).
Proof.
  intros HB. repeat split.
  - intros sid ->. by apply onExpiration_match.
  - intros sid Hsame.
    destruct (destroy_first_event this sid w) as [rest Hrest].
    destruct (String.eqb_spec (substring 0 (String.length (prefixSessionIdle this)) k)
                (prefixSessionIdle this)) as [Heq|Hne].
    + apply starts_with_iff in Heq as [sid0 ->].
      rewrite (onExpiration_match channel sid0 w HB) in Hsame. simpl in Hsame.
      destruct (destroy_first_event this sid0 w) as [rest0 Hrest0].
      rewrite Hsame, Hrest in Hrest0.
      apply app_inv_head in Hrest0. congruence.
    + rewrite onExpiration_no_match in Hsame; [|done|].
      * simpl in Hsame. rewrite <- Hsame in Hrest.
        apply (f_equal length) in Hrest. rewrite List.length_app in Hrest. simpl in Hrest. lia.
      * intros sid0 ->. apply Hne, substring_app.
  - by apply onExpiration_no_match.
  - intros Hapart sid. apply onExpiration_no_match; [done|].
    intros sid'. by apply apart_keys.
Qed.

End Listener.

(** * Writes, refresh and the failure cases *)

Section Lifecycle.

Context {codec : JsonCodec}.
Variable this : RedisSessionMgmt.

Abbreviation key sid := (prefixSession this +:+ sid).
Abbreviation keyIdle sid := (prefixSessionIdle this +:+ sid).


(** C8.  [restartIdleTTL] sends one command, the [expire] of the idle marker
    with [maxIdleTime] (1800 seconds without settings).  Every other key of
    the store, the record key among them, keeps its entry; the idle marker
    keeps its value, and when it exists its time to live becomes
    [maxIdleTime]. *)
Theorem restartIdleTTL_only_idle_ttl (sid : string) (w : world) :
  0 < maxIdleTime this ->
  let w' := fst (restartIdleTTL this sid w) in
  snd (restartIdleTTL this sid w) = Ok tt
  /\ trace w' = (trace w ++ [EvExpire (keyIdle sid) (maxIdleTime this)])%list
  /\ (forall k, k <> keyIdle sid -> store w' !! k = store w !! k)
  /\ (prefixSession this <> prefixSessionIdle this -> store w' !! key sid = store w !! key sid)
  /\ e_value <$> store w' !! keyIdle sid = e_value <$> store w !! keyIdle sid
  /\ e_ttl <$> store w' !! keyIdle sid =
       (fun _ => Some (maxIdleTime this)) <$> store w !! keyIdle sid
  /\ maxIdleTime (constructor no_settings) = 1800.
Proof.
  intros Hidle. cbv zeta. rewrite restartIdleTTL_run. simpl.
  split; [done|]. split.
  { unfold redisPub.expire. by destruct (store w !! keyIdle sid). }
  split.
  { intros k Hk. by apply expire_other. }
  split.
  { intros Hpre. apply expire_other. intros Heq. apply Hpre. by apply (app_inj_r _ _ sid). }
  unfold redisPub.expire.
  destruct (store w !! keyIdle sid) as [e|] eqn:He; simpl.
  - destruct (Z.leb_spec (maxIdleTime this) 0) as [?|_]; [lia|].
    by rewrite lookup_insert_eq.
  - by rewrite He.
Qed.

(** C9.  Without the idle marker [destroy] throws a [TypeError]: [get]
    returned [null] and its destructuring fails.  The read of the idle marker
    is the only command sent, so nothing is deleted and the store is as it
    was. *)
Theorem destroy_without_idle_marker (sid : string) (w : world) :
  store w !! keyIdle sid = None ->
  let w' := fst (destroy this sid w) in
  snd (get this sid w) = Ok VNull
  /\ snd (destroy this sid w) = Throw TypeError
  /\ trace w' = (trace w ++ [EvGet (keyIdle sid)])%list
  /\ store w' = store w.
Proof.
  intros Hidle. cbv zeta.
  pose proof (get_absent this sid w Hidle) as Hget.
  rewrite (destroy_null this sid w _ Hget), Hget. by simpl.
Qed.

(** C10.  With the idle marker but without the record, the client answers
    [null] for the record, [JSON.parse] reads it as the text [null], and [get]
    returns [null] instead of throwing. *)
Theorem get_record_missing (sid : string) (w : world) (e : entry) :
  JSON_parse "null" = Ok VNull ->
  store w !! keyIdle sid = Some e ->
  store w !! key sid = None ->
  snd (get this sid w) = Ok VNull.
Proof.
  intros Hnull Hidle Hrec.
  rewrite (get_present this sid w e Hidle). simpl. by rewrite Hrec.
Qed.

End Lifecycle.

(** * The scenario of the expired idle marker, and concrete runs *)

(** C1.  The session ["u1"] is set with its credentials; 121 seconds later
    the idle marker is the one key that has expired, and the message for it
    is handled.  A [get] afterwards returns [null], but the record key is
    still in the store with the rest of its day to live: [destroy] threw
    before its deletions, and the hook was not called. *)
Theorem expired_idle_marker_leaves_record :
  let w3 := fst (onExpiration this1 expired_channel "session-idle:u1" world2) in
  expired_keys 121 (store world1) = ["session-idle:u1"]
  /\ store world2 !! "session-idle:u1" = None
  /\ onExpiration this1 expired_channel "session-idle:u1" world2
     = (emit (EvGet "session-idle:u1") world2, Ok tt)
  /\ snd (get this1 "u1" w3) = Ok VNull
  /\ store w3 !! "session:u1" = Some (mkEntry (JSON_stringify creds1) (Some 86279))
  /\ hook_calls (trace w3) = []
  /\ deleted_keys (trace w3) = [].
Proof. vm_compute. repeat split. Qed.

(** C3 as stated fails: with a hook that rejects, [destroy] of the readable
    session ["u1"] calls the hook, throws, and both keys are still in the
    store. *)
Lemma destroy_rejected_hook_keeps_keys :
  let w' := fst (destroy this2 "u1" world1) in
  snd (get this2 "u1" world1) = Ok creds1
  /\ snd (destroy this2 "u1" world1) = Throw (Thrown (VStr "logout failed"))
  /\ hook_calls (trace w') = [(VStr "master", VStr "tok1", VStr "ref1")]
  /\ store w' !! "session:u1" <> None
  /\ store w' !! "session-idle:u1" <> None.
Proof. vm_compute. repeat split; discriminate. Qed.

(** ** The theorems at the sample data *)

Lemma Built_this1 : Built this1.
Proof. apply Built_hook, Built_new. Qed.

(** [destroy] of the session of [world1] calls the hook once, with the realm
    first. *)
Lemma destroy_hook_iff_credentials_witness :
  hook_calls (trace (fst (destroy this1 "u1" world1)))
  = [(VStr "master", VStr "tok1", VStr "ref1")].
Proof.
  destruct (destroy_hook_iff_credentials this1 "u1" world1
              (fst (get this1 "u1" world1)) creds1 accept) as (dels & _ & _ & H & _).
  - reflexivity.
  - vm_compute. reflexivity.
  - reflexivity.
  - rewrite H. vm_compute. reflexivity.
Defined.

(** With the hook that resolves, both keys of ["u1"] are deleted. *)
Lemma destroy_deletes_unless_hook_fails_witness :
  snd (destroy this1 "u1" world1) = Ok tt
  /\ store (fst (destroy this1 "u1" world1)) !! "session:u1" = None
  /\ store (fst (destroy this1 "u1" world1)) !! "session-idle:u1" = None.
Proof.
  pose proof (destroy_deletes_unless_hook_fails this1 "u1" world1
                (fst (get this1 "u1" world1)) creds1) as H.
  assert (hook_outcome this1 creds1 = Ok tt) as Hout by reflexivity.
  cbv zeta in H. rewrite Hout in H.
  destruct H as (H1 & H2 & H3 & _).
  - vm_compute. reflexivity.
  - reflexivity.
  - repeat split; assumption.
Defined.

(** The credentials of ["u1"] are read back after [set]. *)
Lemma get_after_set_witness :
  snd (get mgmt0 "u1" (fst (set mgmt0 "u1" creds1 empty_world))) = Ok creds1.
Proof.
  apply (get_after_set mgmt0 "u1" creds1 empty_world).
  - discriminate.
  - reflexivity.
  - reflexivity.
  - apply mini_json_round_trip. reflexivity.
Defined.

(** A history about another session leaves ["u1"] absent. *)
Lemma get_checks_idle_marker_first_witness :
  let cs := [CallSet "u2" creds1; CallRestartIdleTTL "u2"; Wait 1801;
             Message expired_channel "session-idle:u2"; CallDestroy "u1"] in
  snd (get (fst (run cs (this1, empty_world))) "u1" (snd (run cs (this1, empty_world))))
  = Ok VNull.
Proof.
  intros cs.
  destruct (get_checks_idle_marker_first this1 "u1" empty_world) as [_ H].
  apply H.
  - reflexivity.
  - intros sess Hin. unfold cs in Hin.
    repeat (apply elem_of_cons in Hin as [Hin|Hin]; [discriminate Hin|]).
    by apply elem_of_nil in Hin.
Defined.

(** The message for the idle marker of ["u1"] runs [destroy], the one for
    its record key is ignored. *)
Lemma onExpiration_filters_idle_keys_witness :
  onExpiration this1 expired_channel "session-idle:u1" world1
  = (fst (destroy this1 "u1" world1), Ok tt)
  /\ onExpiration this1 expired_channel "session:u1" world1 = (world1, Ok tt).
Proof.
  destruct (onExpiration_filters_idle_keys this1 expired_channel "session-idle:u1" world1
              Built_this1) as (H1 & _).
  destruct (onExpiration_filters_idle_keys this1 expired_channel "session:u1" world1
              Built_this1) as (_ & _ & _ & H4).
  split.
  - apply (H1 "u1"). reflexivity.
  - apply (H4 eq_refl "u1").
Defined.


(** The refresh of ["u1"] leaves its record and gives the marker 1800
    seconds. *)
Lemma restartIdleTTL_only_idle_ttl_witness :
  let w' := fst (restartIdleTTL this1 "u1" world1) in
  store w' !! "session:u1" = store world1 !! "session:u1"
  /\ e_ttl <$> store w' !! "session-idle:u1" = Some (Some 1800).
Proof.
  destruct (restartIdleTTL_only_idle_ttl this1 "u1" world1)
    as (_ & _ & _ & H1 & _ & H2 & _).
  - reflexivity.
  - split.
    + apply H1. discriminate.
    + etrans; [exact H2|]. vm_compute. reflexivity.
Defined.

(** [destroy] of ["u1"] once its marker has expired. *)
Lemma destroy_without_idle_marker_witness :
  store (fst (destroy this1 "u1" world2)) = store world2
  /\ snd (destroy this1 "u1" world2) = Throw TypeError.
Proof.
  destruct (destroy_without_idle_marker this1 "u1" world2) as (_ & H1 & _ & H2).
  - vm_compute. reflexivity.
  - split; [exact H2|exact H1].
Defined.

(** [get] on a marker without record. *)
Lemma get_record_missing_witness : snd (get this1 "u1" world3) = Ok VNull.
Proof.
  apply (get_record_missing this1 "u1" world3 (mkEntry "empty" None)).
  - vm_compute. reflexivity.
  - vm_compute. reflexivity.
  - vm_compute. reflexivity.
Defined.

(** * Beyond the claims: the session store over time *)

Section Lifetimes.

Context {codec : JsonCodec}.
Variable this : RedisSessionMgmt.

Abbreviation key sid := (prefixSession this +:+ sid).
Abbreviation keyIdle sid := (prefixSessionIdle this +:+ sid).

(** What [get] returns depends on the two entries of the session only. *)
Lemma get_result (sid : string) (w : world) :
  snd (get this sid w) =
    match store w !! keyIdle sid with
    | None => Ok VNull
    | Some _ => JSON_parse (to_text (e_value <$> store w !! key sid))
    end.
Proof.
  destruct (store w !! keyIdle sid) as [e|] eqn:Hidle.
  - by rewrite (get_present this sid w e Hidle).
  - by rewrite (get_absent this sid w Hidle).
Qed.

Lemma get_same_entries (sid : string) (w1 w2 : world) :
  store w1 !! keyIdle sid = store w2 !! keyIdle sid ->
  store w1 !! key sid = store w2 !! key sid ->
  snd (get this sid w1) = snd (get this sid w2).
Proof. intros Hi Hk. by rewrite !get_result, Hi, Hk. Qed.

(** After [d] seconds an entry is gone if its time to live was at most [d],
    and [d] seconds older otherwise. *)
Lemma survivors_lookup (d : Z) (s : gmap string entry) (k : string) :
  survivors d s !! k =
    match s !! k with
    | Some e => if expired_after d e then None else Some (age d e)
    | None => None
    end.
Proof.
  unfold survivors. rewrite lookup_fmap.
  destruct (s !! k) as [e|] eqn:Hk.
  - destruct (expired_after d e) eqn:He.
    + rewrite (proj2 (map_lookup_filter_None _ s k)); [done|].
      right. intros e' He'. simpl. congruence.
    + by rewrite (map_lookup_filter_Some_2 _ s k e Hk He).
  - rewrite (proj2 (map_lookup_filter_None _ s k)); [done|]. by left.
Qed.

(** A successful [destroy] has sent its two deletions. *)
Lemma destroy_ok_store (sid : string) (w : world) :
  snd (destroy this sid w) = Ok tt ->
  store (fst (destroy this sid w)) = delete (keyIdle sid) (delete (key sid) (store w)).
Proof.
  pose proof (get_store this sid w) as Hst.
  destruct (get this sid w) as [w1 [v|e]] eqn:Hget; simpl in Hst.
  - destruct (nullish v) eqn:Hv.
    + unfold destroy. rewrite try_rethrow. unfold bind at 1. rewrite Hget.
      by destruct v.
    + rewrite (destroy_readable this sid w w1 v Hget Hv). cbv zeta.
      destruct (has_credentials v); [destruct (beforeDestroy this) as [prom|];
        [destruct (prom _ _ _) as [[]|]|]|]; simpl; try discriminate;
        by rewrite Hst.
  - by rewrite (destroy_get_throws this sid w w1 e Hget).
Qed.

(** X1.  A [destroy] that succeeded cannot be repeated: the session is gone
    ([get] returns [null], both keys are absent), and a second [destroy]
    throws a [TypeError] and leaves the store as it is. *)
Theorem destroy_not_repeatable (sid : string) (w : world) :
  snd (destroy this sid w) = Ok tt ->
  let w' := fst (destroy this sid w) in
  store w' !! key sid = None
  /\ store w' !! keyIdle sid = None
  /\ snd (get this sid w') = Ok VNull
  /\ snd (destroy this sid w') = Throw TypeError
  /\ store (fst (destroy this sid w')) = store w'.
Proof.
  intros Hok. cbv zeta.
  pose proof (destroy_ok_store sid w Hok) as Hst.
  assert (store (fst (destroy this sid w)) !! keyIdle sid = None) as Hidle.
  { rewrite Hst. apply lookup_delete_eq. }
  assert (store (fst (destroy this sid w)) !! key sid = None) as Hkey.
  { rewrite Hst. rewrite lookup_delete_None. right. apply lookup_delete_eq. }
  pose proof (get_absent this sid _ Hidle) as Hget.
  rewrite (destroy_null this sid _ _ Hget), Hget. by simpl.
Qed.

(** X2.  Sessions do not interfere: when neither key prefix starts with the
    other, what [get] returns for [sid'] is the same before and after a
    [set], a [destroy], a [restartIdleTTL] or an expiry message for another
    session id [sid]. *)
Theorem other_sessions_untouched
    (sid sid' channel : string) (data : value) (w : world) :
  Built this ->
  prefixes_apart this = true ->
  sid <> sid' ->
  snd (get this sid' (fst (set this sid data w))) = snd (get this sid' w)
  /\ snd (get this sid' (fst (destroy this sid w))) = snd (get this sid' w)
  /\ snd (get this sid' (fst (restartIdleTTL this sid w))) = snd (get this sid' w)
  /\ snd (get this sid' (fst (onExpiration this channel (keyIdle sid) w)))
     = snd (get this sid' w).
Proof.
  intros HB Hapart Hsid.
  assert (key sid' <> key sid) as Hkk.
  { intros H. by apply (String.app_inj _) in H. }
  assert (keyIdle sid' <> keyIdle sid) as Hii.
  { intros H. by apply (String.app_inj _) in H. }
  assert (key sid' <> keyIdle sid) as Hki by (by apply apart_keys).
  assert (keyIdle sid' <> key sid) as Hik.
  { intros H. symmetry in H. by apply apart_keys in H. }
  assert (snd (get this sid' (fst (destroy this sid w))) = snd (get this sid' w)) as Hdel.
  { apply get_same_entries; destruct (destroy_store this sid w) as [->| ->]; try done;
      by rewrite !lookup_delete_ne. }
  split; [|split; [|split]].
  - apply get_same_entries; by apply set_other.
  - exact Hdel.
  - rewrite restartIdleTTL_run. simpl. apply get_same_entries; by apply expire_other.
  - by rewrite (onExpiration_match this channel sid w HB).
Qed.

(** The two entries right after [set]. *)
Lemma set_entries (sid : string) (data : value) (w : world) :
  prefixSession this <> prefixSessionIdle this ->
  0 < maxLifetime this ->
  0 < maxLoginReturnTime this ->
  store (fst (set this sid data w)) !! key sid
    = Some (mkEntry (JSON_stringify data) (Some (maxLifetime this)))
  /\ store (fst (set this sid data w)) !! keyIdle sid
    = Some (mkEntry (sessionIdleValue this) (Some (maxLoginReturnTime this))).
Proof.
  intros Hpre Hlife Hlogin.
  assert (keyIdle sid <> key sid) as Hne.
  { intros Heq. apply Hpre. symmetry. by apply (app_inj_r _ _ sid). }
  rewrite (set_store this sid data w Hlife Hlogin). split.
  - by rewrite lookup_insert_ne, lookup_insert_eq.
  - by rewrite lookup_insert_eq.
Qed.

(** What [get] returns [d] seconds after the entries were given times to
    live [ttl] (record) and [idle] (marker). *)
Lemma get_after_wait (sid : string) (w : world) (d ttl idle : Z) (text mark : string) :
  store w !! key sid = Some (mkEntry text (Some ttl)) ->
  store w !! keyIdle sid = Some (mkEntry mark (Some idle)) ->
  snd (get this sid (elapse d w)) =
    if idle <=? d then Ok VNull
    else JSON_parse (if ttl <=? d then "null" else text).
Proof.
  intros Hk Hi. rewrite get_result. unfold elapse. simpl.
  rewrite !survivors_lookup, Hk, Hi. unfold expired_after. simpl.
  destruct (idle <=? d); [done|]. by destruct (ttl <=? d).
Qed.

(** X3.  The grace period: [d] seconds after [set], with nothing in between,
    [get] returns [null] as soon as [d] reaches [maxLoginReturnTime]; before
    that it returns the parsed payload (or, had the record expired first,
    what [JSON.parse] makes of [null]). *)
Theorem grace_period_after_set (sid : string) (data : value) (w : world) (d : Z) :
  prefixSession this <> prefixSessionIdle this ->
  0 < maxLifetime this ->
  0 < maxLoginReturnTime this ->
  snd (get this sid (elapse d (fst (set this sid data w)))) =
    if maxLoginReturnTime this <=? d then Ok VNull
    else JSON_parse (if maxLifetime this <=? d then "null" else JSON_stringify data).
Proof.
  intros Hpre Hlife Hlogin.
  destruct (set_entries sid data w Hpre Hlife Hlogin) as [Hk Hi].
  by apply get_after_wait with (mark := sessionIdleValue this).
Qed.

(** The entries after a [restartIdleTTL] that found the marker. *)
Lemma restart_entries (sid : string) (w : world) (e : entry) :
  prefixSession this <> prefixSessionIdle this ->
  0 < maxIdleTime this ->
  store w !! keyIdle sid = Some e ->
  store (fst (restartIdleTTL this sid w)) !! key sid = store w !! key sid
  /\ store (fst (restartIdleTTL this sid w)) !! keyIdle sid
     = Some (mkEntry (e_value e) (Some (maxIdleTime this))).
Proof.
  intros Hpre Hidle He. rewrite restartIdleTTL_run. simpl. split.
  - apply expire_other. intros Heq. apply Hpre. by apply (app_inj_r _ _ sid).
  - unfold redisPub.expire. rewrite He. simpl.
    destruct (Z.leb_spec (maxIdleTime this) 0) as [?|_]; [lia|].
    by rewrite lookup_insert_eq.
Qed.

(** X4.  The idle window: after [set] and a [restartIdleTTL], the session is
    readable for [maxIdleTime] seconds instead of the grace period, and the
    record still expires [maxLifetime] seconds after the [set]. *)
Theorem idle_window_after_restart (sid : string) (data : value) (w : world) (d : Z) :
  prefixSession this <> prefixSessionIdle this ->
  0 < maxLifetime this ->
  0 < maxLoginReturnTime this ->
  0 < maxIdleTime this ->
  snd (get this sid (elapse d (fst (restartIdleTTL this sid (fst (set this sid data w))))))
  = if maxIdleTime this <=? d then Ok VNull
    else JSON_parse (if maxLifetime this <=? d then "null" else JSON_stringify data).
Proof.
  intros Hpre Hlife Hlogin Hidle.
  destruct (set_entries sid data w Hpre Hlife Hlogin) as [Hk Hi].
  destruct (restart_entries sid _ _ Hpre Hidle Hi) as [Hk' Hi'].
  rewrite Hk in Hk'.
  by apply get_after_wait with (mark := sessionIdleValue this).
Qed.

(** X5.  A refresh that comes too late does not revive the session: once the
    grace period has run out, [restartIdleTTL] changes nothing in the store
    and [get] still returns [null]. *)
Theorem late_restart_does_not_revive (sid : string) (data : value) (w : world) (d : Z) :
  prefixSession this <> prefixSessionIdle this ->
  0 < maxLifetime this ->
  0 < maxLoginReturnTime this ->
  maxLoginReturnTime this <= d ->
  let w1 := elapse d (fst (set this sid data w)) in
  let w2 := fst (restartIdleTTL this sid w1) in
  snd (restartIdleTTL this sid w1) = Ok tt
  /\ store w2 = store w1
  /\ snd (get this sid w2) = Ok VNull.
Proof.
  intros Hpre Hlife Hlogin Hd. cbv zeta.
  destruct (set_entries sid data w Hpre Hlife Hlogin) as [_ Hi].
  assert (store (elapse d (fst (set this sid data w))) !! keyIdle sid = None) as Hgone.
  { unfold elapse. simpl. rewrite survivors_lookup, Hi. unfold expired_after. simpl.
    by destruct (Z.leb_spec (maxLoginReturnTime this) d) as [_|?]; [|lia]. }
  rewrite restartIdleTTL_run. simpl.
  assert (store (fst (redisPub.expire (keyIdle sid) (maxIdleTime this)
                        (elapse d (fst (set this sid data w)))))
          = store (elapse d (fst (set this sid data w)))) as Hsame.
  { unfold redisPub.expire. by rewrite Hgone. }
  split; [done|]. split; [done|].
  rewrite get_result, Hsame. by rewrite Hgone.
Qed.

(** X6.  With the two prefixes configured equal the marker overwrites the
    record: [get] after [set] parses the marker value, whatever the
    payload. *)
Theorem equal_prefixes_lose_the_record (sid : string) (data : value) (w : world) :
  prefixSession this = prefixSessionIdle this ->
  0 < maxLifetime this ->
  0 < maxLoginReturnTime this ->
  snd (get this sid (fst (set this sid data w))) = JSON_parse (sessionIdleValue this).
Proof.
  intros Hpre Hlife Hlogin.
  rewrite get_result, (set_store this sid data w Hlife Hlogin), Hpre.
  by rewrite !lookup_insert_eq.
Qed.

(** X7.  [destroy] before any hook is registered: on a session with the three
    credentials it throws a [TypeError] after the two reads and deletes
    nothing; on a session without them it deletes both keys. *)
Theorem destroy_without_hook (sid : string) (w w1 : world) (v : value) :
  beforeDestroy this = None ->
  get this sid w = (w1, Ok v) ->
  nullish v = false ->
  let w' := fst (destroy this sid w) in
  if has_credentials v then
    snd (destroy this sid w) = Throw TypeError
    /\ store w' = store w
    /\ trace w' = (trace w ++ [EvGet (keyIdle sid); EvGet (key sid)])%list
  else
    snd (destroy this sid w) = Ok tt
    /\ store w' !! key sid = None
    /\ store w' !! keyIdle sid = None.
Proof.
  intros Hnone Hget Hv. cbv zeta.
  rewrite (destroy_readable this sid w w1 v Hget Hv). cbv zeta. rewrite Hnone.
  pose proof (get_store this sid w) as Hst. rewrite Hget in Hst. simpl in Hst.
  destruct (has_credentials v).
  - simpl. split; [done|]. split; [done|].
    destruct (store w !! keyIdle sid) as [e|] eqn:Hidle.
    + rewrite (get_present this sid w e Hidle) in Hget. injection Hget as <- _.
      simpl. by rewrite <- app_assoc.
    + rewrite (get_absent this sid w Hidle) in Hget. injection Hget as _ <-. discriminate.
  - simpl. split; [done|]. apply after_deletes_lookup.
Qed.

(** X8.  [set] absorbs what was stored under the same session id: after a
    [set] with one payload and a [set] with another, the store is the store
    after the second [set] alone, times to live included. *)
Theorem set_absorbs_previous (sid : string) (data1 data2 : value) (w : world) :
  0 < maxLifetime this ->
  0 < maxLoginReturnTime this ->
  store (fst (set this sid data2 (fst (set this sid data1 w))))
  = store (fst (set this sid data2 w)).
Proof.
  intros Hlife Hlogin. rewrite !(set_store this sid) by done.
  apply map_eq. intros k. rewrite !lookup_insert.
  by destruct (decide (keyIdle sid = k)), (decide (key sid = k)).
Qed.

End Lifetimes.


(** ** The listener *)

Section ListenerFacts.

Context {codec : JsonCodec}.
Variable this : RedisSessionMgmt.

Abbreviation key sid := (prefixSession this +:+ sid).
Abbreviation keyIdle sid := (prefixSessionIdle this +:+ sid).

(** X9.  The listener never throws and never writes: whatever the channel and
    the key, [onExpiration] returns, and the store afterwards is the store
    before, or the store before without the two keys of one session id. *)
Theorem onExpiration_never_throws (channel k : string) (w : world) :
  snd (onExpiration this channel k w) = Ok tt
  /\ (store (fst (onExpiration this channel k w)) = store w
      \/ exists sid,
           store (fst (onExpiration this channel k w))
           = delete (keyIdle sid) (delete (key sid) (store w))).
Proof.
  split.
  - unfold onExpiration, try_catch.
    destruct (String.eqb _ _); [|done].
    unfold bind, ret. by destruct (destroy this _ w) as [w' [[]|e]].
  - destruct (onExpiration_store this channel k w) as [H|[sid H]]; [by left|].
    rewrite H. destruct (destroy_store this sid w) as [->| ->]; [by left|].
    right. by exists sid.
Qed.

(** X10.  An expiry message that is handled after the session was set again
    destroys the fresh session: the hook step is run on the new payload and,
    unless it fails, both keys are deleted and [get] returns [null]. *)
Theorem late_message_destroys_fresh_session
    (channel sid : string) (data : value) (w : world) :
  Built this ->
  prefixSession this <> prefixSessionIdle this ->
  0 < maxLifetime this ->
  0 < maxLoginReturnTime this ->
  JSON_parse (JSON_stringify data) = Ok data ->
  nullish data = false ->
  hook_outcome this data = Ok tt ->
  let w1 := fst (set this sid data w) in
  let w2 := fst (onExpiration this channel (keyIdle sid) w1) in
  snd (get this sid w1) = Ok data
  /\ store w2 !! key sid = None
  /\ store w2 !! keyIdle sid = None
  /\ snd (get this sid w2) = Ok VNull.
Proof.
  intros HB Hpre Hlife Hlogin Hdata Hnn Hhook. cbv zeta.
  pose proof (set_then_get this sid data w Hpre Hlife Hlogin) as Hget.
  rewrite Hdata in Hget. split; [exact Hget|].
  rewrite (onExpiration_match this channel sid _ HB). simpl.
  destruct (get this sid (fst (set this sid data w))) as [w1 r] eqn:Hg.
  simpl in Hget. subst r.
  rewrite (destroy_readable this sid _ w1 data Hg Hnn). cbv zeta.
  unfold hook_outcome in Hhook.
  assert (forall w0, snd (get this sid (after_deletes this sid w0)) = Ok VNull) as Hnull.
  { intros w0. rewrite get_result.
    by rewrite (proj2 (after_deletes_lookup this sid w0)). }
  destruct (has_credentials data).
  - destruct (beforeDestroy this) as [prom|]; [|discriminate].
    destruct (prom _ _ _) as [[]|e]; [|discriminate]. simpl.
    split; [apply after_deletes_lookup|]. split; [apply after_deletes_lookup|]. apply Hnull.
  - simpl.
    split; [apply after_deletes_lookup|]. split; [apply after_deletes_lookup|]. apply Hnull.
Qed.

End ListenerFacts.

(** ** What holds after every history *)

Section Invariants.

Context {codec : JsonCodec}.

(** X11.  The manager as built: neither key prefix is empty (a setting that
    is empty or missing gives the default), the length kept for the idle
    prefix is its length, no configured time is zero, and the marker value
    is the word [empty]; registering a hook changes none of this. *)
Theorem constructor_invariants (this : RedisSessionMgmt) :
  Built this ->
  prefixSession this <> ""
  /\ prefixSessionIdle this <> ""
  /\ prefixSessionIdleSize this = String.length (prefixSessionIdle this)
  /\ maxLifetime this <> 0
  /\ maxIdleTime this <> 0
  /\ maxLoginReturnTime this <> 0
  /\ sessionIdleValue this = "empty".
Proof.
  assert (forall x d, d <> 0 -> or_num x d <> 0) as Hnum.
  { intros x d Hd. unfold or_num. destruct x as [n|]; [|done].
    destruct (Z.eqb_spec n 0); done. }
  induction 1 as [cfg|this prom HB IH]; [|exact IH]. simpl.
  repeat split; try (by apply or_str_nonempty); by apply Hnum.
Qed.

(** [set] as the four commands it sends. *)
Lemma set_as_commands (this : RedisSessionMgmt) (sid : string) (data : value) (w : world) :
  fst (set this sid data w) =
    fst (redisPub.expire (prefixSessionIdle this +:+ sid) (maxLoginReturnTime this)
      (fst (redisPub.set (prefixSessionIdle this +:+ sid) (sessionIdleValue this)
        (fst (redisPub.expire (prefixSession this +:+ sid) (maxLifetime this)
          (fst (redisPub.set (prefixSession this +:+ sid) (JSON_stringify data) w))))))).
Proof.
  unfold set. rewrite try_rethrow.
  unfold bind, ret, redisPub.set, redisPub.expire. simpl.
  rewrite lookup_insert_eq. simpl. by rewrite lookup_insert_eq.
Qed.

Lemma expire_mortal (k : string) (seconds : Z) (w : world) :
  all_mortal (store w) -> all_mortal (store (fst (redisPub.expire k seconds w))).
Proof.
  intros Hw k' e. unfold redisPub.expire.
  destruct (store w !! k) as [e0|] eqn:Hk; [|apply Hw]. simpl.
  destruct (Z.leb_spec seconds 0) as [?|Hpos].
  - intros He. apply lookup_delete_Some in He as [_ He]. by apply (Hw k').
  - intros He. apply lookup_insert_Some in He as [[_ <-]|[_ He]].
    + by exists seconds.
    + by apply (Hw k').
Qed.

(** A [set] command followed by the [expire] of the same key. *)
Lemma set_expire_mortal (k val : string) (seconds : Z) (w : world) :
  all_mortal (store w) ->
  all_mortal (store (fst (redisPub.expire k seconds (fst (redisPub.set k val w))))).
Proof.
  intros Hw k' e. unfold redisPub.expire, redisPub.set. simpl.
  rewrite lookup_insert_eq. simpl.
  destruct (Z.leb_spec seconds 0) as [?|Hpos].
  - intros He. apply lookup_delete_Some in He as [Hne He].
    rewrite lookup_insert_ne in He by done. by apply (Hw k').
  - rewrite insert_insert_eq. intros He.
    apply lookup_insert_Some in He as [[_ <-]|[_ He]].
    + by exists seconds.
    + by apply (Hw k').
Qed.

Lemma delete_mortal (k : string) (s : gmap string entry) :
  all_mortal s -> all_mortal (delete k s).
Proof. intros Hs k' e He. apply lookup_delete_Some in He as [_ He]. by apply (Hs k'). Qed.

Lemma survivors_mortal (d : Z) (s : gmap string entry) :
  all_mortal s -> all_mortal (survivors d s).
Proof.
  intros Hs k e. rewrite survivors_lookup.
  destruct (s !! k) as [e0|] eqn:Hk; [|done].
  destruct (Hs k e0 Hk) as (t & Ht & Hpos).
  unfold expired_after. rewrite Ht.
  destruct (Z.leb_spec t d) as [?|Hlt]; [done|].
  intros [= <-]. exists (t - d). unfold age. rewrite Ht. simpl. split; [done|lia].
Qed.

Lemma destroy_mortal (this : RedisSessionMgmt) (sid : string) (w : world) :
  all_mortal (store w) -> all_mortal (store (fst (destroy this sid w))).
Proof.
  intros Hw. destruct (destroy_store this sid w) as [->| ->]; [done|].
  by do 2 apply delete_mortal.
Qed.

Lemma step_mortal (c : call) (this : RedisSessionMgmt) (w : world) :
  all_mortal (store w) -> all_mortal (store (snd (step c (this, w)))).
Proof.
  intros Hw. destruct c as [sid|sid sess|sid|sid|prom|channel k|d]; simpl.
  - by rewrite get_store.
  - rewrite set_as_commands. by do 2 apply set_expire_mortal.
  - by apply destroy_mortal.
  - rewrite restartIdleTTL_run. simpl. by apply expire_mortal.
  - done.
  - destruct (onExpiration_store this channel k w) as [->|[sid ->]]; [done|].
    by apply destroy_mortal.
  - by apply survivors_mortal.
Qed.

Lemma run_mortal (cs : list call) (this : RedisSessionMgmt) (w : world) :
  all_mortal (store w) -> all_mortal (store (snd (run cs (this, w)))).
Proof.
  revert this w. induction cs as [|c cs IH]; intros this w Hw; [done|].
  change (run (c :: cs) (this, w)) with (run cs (step c (this, w))).
  pose proof (step_mortal c this w Hw) as Hstep.
  destruct (step c (this, w)) as [this' w']. by apply IH.
Qed.


(** What a call that neither writes nor refreshes key [k] does to its entry:
    waiting ages it or lets it expire, any other call keeps or deletes it. *)
Lemma step_entry (c : call) (this : RedisSessionMgmt) (w : world) (k : string) :
  ~ writes this k c ->
  ~ refreshes this k c ->
  match c with
  | Wait d => store (snd (step c (this, w))) !! k = survivors d (store w) !! k
  | _ =>
      store (snd (step c (this, w))) !! k = store w !! k
      \/ store (snd (step c (this, w))) !! k = None
  end.
Proof.
  intros Hw Hr.
  assert (forall sid,
            store (fst (destroy this sid w)) !! k = store w !! k
            \/ store (fst (destroy this sid w)) !! k = None) as Hdestroy.
  { intros sid. destruct (destroy_store this sid w) as [->| ->]; [by left|].
    destruct (decide (k = prefixSessionIdle this +:+ sid)) as [->|Hi].
    { right. apply lookup_delete_eq. }
    rewrite lookup_delete_ne by done.
    destruct (decide (k = prefixSession this +:+ sid)) as [->|Hk].
    { right. apply lookup_delete_eq. }
    left. by rewrite lookup_delete_ne. }
  destruct c as [sid|sid sess|sid|sid|prom|channel k'|d]; simpl.
  - left. by rewrite get_store.
  - left. simpl in Hw. apply set_other; tauto.
  - apply Hdestroy.
  - left. rewrite restartIdleTTL_run. simpl. by apply expire_other.
  - by left.
  - destruct (onExpiration_store this channel k' w) as [->|[sid ->]]; [by left|].
    apply Hdestroy.
  - done.
Qed.

Lemma run_capped (limit : Z) (k : string) (cs : list call) :
  forall (this : RedisSessionMgmt) (w : world) (elapsed : Z),
    (forall c, c ∈ cs -> forward c /\ ~ writes this k c /\ ~ refreshes this k c) ->
    capped limit elapsed (store w !! k) ->
    capped limit (elapsed + total_wait cs) (store (snd (run cs (this, w))) !! k).
Proof.
  induction cs as [|c cs IH]; intros this w elapsed Hcs Hcap.
  { simpl. by rewrite Z.add_0_r. }
  change (run (c :: cs) (this, w)) with (run cs (step c (this, w))).
  destruct (Hcs c) as (Hfw & Hw & Hr); [by left|].
  pose proof (step_entry c this w k Hw Hr) as Hstep.
  destruct (step_prefixes c this w) as [Hp Hi].
  destruct (step c (this, w)) as [this' w'] eqn:Hst. simpl in Hp, Hi, Hstep.
  assert (forall c', c' ∈ cs ->
            forward c' /\ ~ writes this' k c' /\ ~ refreshes this' k c') as Hcs'.
  { intros c' Hin. destruct (Hcs c') as (H1 & H2 & H3); [by right|].
    split; [done|]. destruct c'; simpl in *; rewrite ?Hp, ?Hi; by split. }
  destruct c as [sid|sid sess|sid|sid|prom|channel k'|d]; simpl total_wait;
    try (apply IH; [done|]; destruct Hstep as [->| ->]; done).
  replace (elapsed + (d + total_wait cs)) with ((elapsed + d) + total_wait cs) by lia.
  apply IH; [done|]. rewrite Hstep, survivors_lookup.
  destruct (store w !! k) as [e|]; [|done]. simpl in Hcap.
  destruct Hcap as (t & Ht & Hpos & Hle).
  unfold expired_after. rewrite Ht.
  destruct (Z.leb_spec t d) as [?|Hlt]; [done|]. simpl.
  exists (t - d). unfold age. rewrite Ht. simpl. simpl in Hfw. repeat split; lia.
Qed.

(** X13.  The lifetime of the record is an absolute cap: once [set] has
    written it, no [get], [restartIdleTTL], [destroy], message or [set] for
    another session extends it.  When the waiting of a history without a new
    [set] for [sid] adds up to [maxLifetime], the record key is gone. *)
Theorem record_lifetime_is_absolute
    (this : RedisSessionMgmt) (sid : string) (data : value) (w : world) (cs : list call) :
  prefixes_apart this = true ->
  0 < maxLifetime this ->
  0 < maxLoginReturnTime this ->
  (forall sess, CallSet sid sess ∉ cs) ->
  (forall c, c ∈ cs -> forward c) ->
  maxLifetime this <= total_wait cs ->
  store (snd (run cs (this, fst (set this sid data w)))) !! (prefixSession this +:+ sid)
  = None.
Proof.
  intros Hapart Hlife Hlogin Hset Hfw Htotal.
  assert (prefixSession this <> prefixSessionIdle this) as Hpre.
  { intros Heq. apply (apart_keys this "" "" Hapart). by rewrite Heq. }
  pose proof (run_capped (maxLifetime this) (prefixSession this +:+ sid) cs this
                (fst (set this sid data w)) 0) as Hcap.
  destruct (store (snd (run cs (this, fst (set this sid data w))))
              !! (prefixSession this +:+ sid)) as [e|]; [|done].
  destruct Hcap as (t & _ & Hpos & Hle); [| |lia].
  - intros c Hin. split; [by apply Hfw|]. split.
    + destruct c as [|sid' sess| | | | |]; simpl; try tauto. intros [Hw|Hw].
      * apply (String.app_inj _) in Hw. subst sid'. by apply (Hset sess).
      * by apply apart_keys in Hw.
    + destruct c as [| | |sid'| | |]; simpl; try tauto. by apply apart_keys.
  - rewrite (proj1 (set_entries this sid data w Hpre Hlife Hlogin)). simpl.
    exists (maxLifetime this). repeat split; lia.
Qed.

(** The events [destroy] adds hold no call of the hook with a falsy
    argument. *)
Lemma destroy_new_events (this : RedisSessionMgmt) (sid : string) (w : world) :
  exists new, trace (fst (destroy this sid w)) = (trace w ++ new)%list
              /\ Forall credentialed (hook_calls new).
Proof.
  destruct (get this sid w) as [w1 r] eqn:Hget.
  assert (exists reads, trace w1 = (trace w ++ reads)%list /\ hook_calls reads = [])
    as (reads & Hreads & Hnone).
  { destruct (store w !! (prefixSessionIdle this +:+ sid)) as [e|] eqn:Hidle.
    - rewrite (get_present this sid w e Hidle) in Hget. injection Hget as <- _.
      eexists [_; _]. simpl. by rewrite <- app_assoc.
    - rewrite (get_absent this sid w Hidle) in Hget. injection Hget as <- _.
      by eexists [_]. }
  destruct r as [v|e].
  - destruct (nullish v) eqn:Hv.
    + exists reads. unfold destroy. rewrite try_rethrow. unfold bind at 1. rewrite Hget.
      rewrite Hnone. by destruct v.
    + rewrite (destroy_readable this sid w w1 v Hget Hv). cbv zeta.
      destruct (has_credentials v) eqn:Hc.
      * unfold has_credentials in Hc.
        apply andb_prop in Hc as [Hc Ht]. apply andb_prop in Hc as [Ha Hr].
        destruct (beforeDestroy this) as [prom|].
        -- exists (reads ++ [EvHook (field "realm" v) (field "accessToken" v)
                                (field "refreshToken" v)]
                   ++ match prom (field "realm" v) (field "accessToken" v)
                              (field "refreshToken" v) with
                      | Ok _ => [EvDel (prefixSession this +:+ sid);
                                 EvDel (prefixSessionIdle this +:+ sid)]
                      | Throw _ => []
                      end)%list.
           split.
           ++ destruct (prom _ _ _) as [[]|err]; simpl; rewrite Hreads;
                by rewrite <- !app_assoc.
           ++ rewrite hook_calls_app, Hnone. simpl.
              destruct (prom _ _ _) as [[]|err]; simpl; by repeat constructor.
        -- exists reads. by rewrite Hnone.
      * exists (reads ++ [EvDel (prefixSession this +:+ sid);
                          EvDel (prefixSessionIdle this +:+ sid)])%list.
        split; [simpl; rewrite Hreads; by rewrite <- !app_assoc|].
        rewrite hook_calls_app, Hnone. by simpl.
  - exists reads. rewrite (destroy_get_throws this sid w w1 e Hget). by rewrite Hnone.
Qed.

Lemma onExpiration_world (this : RedisSessionMgmt) (channel k : string) (w : world) :
  fst (onExpiration this channel k w) = w
  \/ exists sid, fst (onExpiration this channel k w) = fst (destroy this sid w).
Proof.
  unfold onExpiration, try_catch.
  destruct (String.eqb _ _); [|by left].
  right. exists (slice (prefixSessionIdleSize this) k).
  unfold bind, ret. by destruct (destroy this _ w) as [w' [[]|e]].
Qed.

Lemma step_new_events (c : call) (this : RedisSessionMgmt) (w : world) :
  exists new, trace (snd (step c (this, w))) = (trace w ++ new)%list
              /\ Forall credentialed (hook_calls new).
Proof.
  destruct c as [sid|sid sess|sid|sid|prom|channel k|d]; simpl.
  - destruct (store w !! (prefixSessionIdle this +:+ sid)) as [e|] eqn:Hidle.
    + rewrite (get_present this sid w e Hidle). eexists [_; _]. simpl.
      by rewrite <- app_assoc.
    + rewrite (get_absent this sid w Hidle). by eexists [_].
  - destruct (set_trace this sid sess w) as [_ ->]. by eexists [_; _; _; _].
  - apply destroy_new_events.
  - rewrite restartIdleTTL_run. simpl. unfold redisPub.expire.
    destruct (store w !! _); by eexists [_].
  - exists []. by rewrite app_nil_r.
  - destruct (onExpiration_world this channel k w) as [->|[sid ->]].
    + exists []. by rewrite app_nil_r.
    + apply destroy_new_events.
  - exists []. by rewrite app_nil_r.
Qed.

Lemma run_new_events (cs : list call) (this : RedisSessionMgmt) (w : world) :
  Forall credentialed (hook_calls (trace w)) ->
  Forall credentialed (hook_calls (trace (snd (run cs (this, w))))).
Proof.
  revert this w. induction cs as [|c cs IH]; intros this w Hw; [done|].
  change (run (c :: cs) (this, w)) with (run cs (step c (this, w))).
  destruct (step_new_events c this w) as (new & Htr & Hnew).
  destruct (step c (this, w)) as [this' w']. simpl in Htr.
  apply IH. rewrite Htr, hook_calls_app. by apply Forall_app.
Qed.

(** X14.  The hook is never called with a missing or empty credential: in
    every history from the empty store, each call of the hook has three
    truthy arguments. *)
Theorem hook_only_with_credentials (cs : list call) (this : RedisSessionMgmt) :
  Forall credentialed (hook_calls (trace (snd (run cs (this, empty_world))))).
Proof. apply run_new_events. constructor. Qed.

(** X15.  A session that is gone stays gone until it is set again: once the
    idle marker is absent (expired or deleted), no history of calls, messages
    and waiting without a [set] for that session id makes [get] return
    anything but [null]. *)
Theorem gone_stays_gone
    (this : RedisSessionMgmt) (sid : string) (w : world) (cs : list call) :
  prefixes_apart this = true ->
  store w !! (prefixSessionIdle this +:+ sid) = None ->
  (forall sess, CallSet sid sess ∉ cs) ->
  snd (get (fst (run cs (this, w))) sid (snd (run cs (this, w)))) = Ok VNull.
Proof.
  intros Hapart Hgone Hcs.
  destruct (run_absent cs this w (prefixSessionIdle this +:+ sid)) as (Hk & Hp & Hi).
  - intros c Hin Hw. destruct c as [|sid' sess| | | | |]; try done.
    simpl in Hw. destruct Hw as [Hw|Hw].
    + symmetry in Hw. by apply apart_keys in Hw.
    + apply (String.app_inj _) in Hw. subst sid'. by apply (Hcs sess).
  - done.
  - rewrite get_absent; [done|]. by rewrite Hi.
Qed.

End Invariants.

(** * Beyond the claims: the device resolvers *)

Lemma truthy_not_nullish (v : value) : truthy v = true -> nullish v = false.
Proof. by destruct v. Qed.

(** The request string of [getDevices]. *)
Lemma write_request_parameters (params : value) :
  nullish params = false ->
  rbind (request_parameters params) (fun rp => Ok (write_parameters rp))
  = Ok (request_string_of params).
Proof.
  intros Hp. unfold request_parameters, request_string_of.
  rewrite !(get_prop_field _ params Hp). cbv zeta. simpl rbind.
  unfold or_else.
  destruct (truthy (field "page" params)) eqn:Hpage.
  - rewrite !(get_prop_field _ _ (truthy_not_nullish _ Hpage)). simpl rbind.
    destruct (truthy (field "filter" params)) eqn:Hfilter.
    + rewrite !(get_prop_field _ _ (truthy_not_nullish _ Hfilter)). simpl rbind.
      destruct (truthy (field "label" (field "filter" params)));
        unfold write_parameters; simpl;
        rewrite ?MiniJsonFacts.app_assoc_s; reflexivity.
    + simpl rbind. unfold write_parameters; simpl;
        rewrite ?MiniJsonFacts.app_assoc_s; reflexivity.
  - simpl rbind.
    destruct (truthy (field "filter" params)) eqn:Hfilter.
    + rewrite !(get_prop_field _ _ (truthy_not_nullish _ Hfilter)). simpl rbind.
      destruct (truthy (field "label" (field "filter" params)));
        unfold write_parameters; simpl;
        rewrite ?MiniJsonFacts.app_assoc_s; reflexivity.
    + simpl rbind. unfold write_parameters; simpl;
        rewrite ?MiniJsonFacts.app_assoc_s; reflexivity.
Qed.

Section ResolverFacts.

Variable axios : value -> result value.
Variable UTIL_optionsAxios : value -> string -> value -> value.
Variable UTIL_GET : value.
Variable formatValueType : value -> result value.

(** [formatValueType] does not throw: it returns [fmt]. *)
Variable fmt : value -> value.
Hypothesis formatValueType_fmt : forall v, formatValueType v = Ok (fmt v).

Lemma attribute_shown (attr : value) :
  nullish attr = false -> attribute formatValueType attr = Ok (shown fmt attr).
Proof.
  intros Hattr. unfold attribute.
  rewrite !(get_prop_field _ attr Hattr). simpl. by rewrite formatValueType_fmt.
Qed.

Lemma push_dynamic_shown (attr : value) (attrs : list value) :
  nullish attr = false ->
  push_dynamic formatValueType attr attrs
  = Ok (if dynamic attr then attrs ++ [shown fmt attr] else attrs)%list.
Proof.
  intros Hattr. unfold push_dynamic, dynamic.
  rewrite (get_prop_field _ attr Hattr). simpl.
  destruct (is_string "dynamic" (field "type" attr)); [|done]. simpl.
  by rewrite (attribute_shown attr Hattr).
Qed.

Lemma push_dynamic_or_geo_shown (attr : value) (attrs : list value) :
  nullish attr = false ->
  push_dynamic_or_geo formatValueType attr attrs
  = Ok (if dynamic_or_geo attr then attrs ++ [shown fmt attr] else attrs)%list.
Proof.
  intros Hattr. unfold push_dynamic_or_geo, dynamic_or_geo, dynamic.
  rewrite !(get_prop_field _ attr Hattr). simpl.
  destruct (is_string "dynamic" (field "type" attr)),
           (is_string "geo:point" (field "value_type" attr)); simpl;
    by rewrite ?(attribute_shown attr Hattr).
Qed.

(** A callback that pushes [show x] for the elements that [keep] selects
    turns [forEach] into a filter followed by a map. *)
Lemma forEach_filter_map
    (callback : value -> list value -> result (list value))
    (keep : value -> bool) (show : value -> value) (items : list value) :
  (forall x acc, nullish x = false ->
     callback x acc = Ok (if keep x then acc ++ [show x] else acc)%list) ->
  forallb (fun x => negb (nullish x)) items = true ->
  forall acc,
    forEach callback items acc = Ok (acc ++ List.map show (List.filter keep items))%list.
Proof.
  intros Hcb. induction items as [|x items IH]; intros Hok acc.
  { simpl. by rewrite app_nil_r. }
  simpl in Hok. apply andb_prop in Hok as [Hx Hitems].
  apply negb_true_iff in Hx.
  simpl. rewrite (Hcb x acc Hx). simpl. rewrite (IH Hitems).
  destruct (keep x); [|done]. simpl. by rewrite <- app_assoc.
Qed.

Lemma each_template_filter_map
    (callback : value -> list value -> result (list value))
    (keep : value -> bool) (show : value -> value) (attrs : value) (acc : list value) :
  (forall x acc, nullish x = false ->
     callback x acc = Ok (if keep x then acc ++ [show x] else acc)%list) ->
  templates_ok attrs = true ->
  each_template callback attrs acc
  = Ok (acc ++ List.map show (List.filter keep (listed attrs)))%list.
Proof.
  intros Hcb. unfold each_template, templates_ok, listed.
  destruct (own_values attrs) as [lists|e]; [|discriminate]. simpl.
  revert acc. induction lists as [|list lists IH]; intros acc Hok.
  { simpl. by rewrite app_nil_r. }
  simpl in Hok. apply andb_prop in Hok as [Hlist Hlists].
  destruct list as [| | | | |items|]; try discriminate Hlist.
  simpl. rewrite (forEach_filter_map callback keep show items Hcb Hlist). simpl.
  rewrite (IH _ Hlists).
  by rewrite List.filter_app, List.map_app, <- app_assoc.
Qed.

Lemma push_device_shown (device : value) (devices : list value) :
  device_ok device = true ->
  push_device formatValueType device devices
  = Ok (devices ++ [shown_device fmt device])%list.
Proof.
  unfold device_ok, push_device, shown_device. intros Hok.
  apply andb_prop in Hok as [Hdev Hattrs]. apply negb_true_iff in Hdev.
  rewrite !(get_prop_field _ device Hdev). simpl.
  destruct (truthy (field "attrs" device)); [|done]. simpl in Hattrs.
  by rewrite (each_template_filter_map _ dynamic_or_geo (shown fmt) _ []
                push_dynamic_or_geo_shown Hattrs).
Qed.

Lemma forEach_push_device (devices : list value) :
  forallb device_ok devices = true ->
  forall acc,
    forEach (push_device formatValueType) devices acc
    = Ok (acc ++ List.map (shown_device fmt) devices)%list.
Proof.
  induction devices as [|device devices IH]; intros Hok acc.
  { simpl. by rewrite app_nil_r. }
  simpl in Hok. apply andb_prop in Hok as [Hdev Hdevs].
  simpl. rewrite (push_device_shown device acc Hdev). simpl.
  rewrite (IH Hdevs). by rewrite <- app_assoc.
Qed.





End ResolverFacts.

(** * The further theorems at the sample data *)

(** The session of [world1] is destroyed once; the second [destroy]
    throws. *)
Lemma destroy_not_repeatable_witness :
  snd (destroy this1 "u1" (fst (destroy this1 "u1" world1))) = Throw TypeError.
Proof.
  destruct (destroy_not_repeatable this1 "u1" world1) as (_ & _ & _ & H & _).
  - vm_compute. reflexivity.
  - exact H.
Defined.

(** Setting ["u2"] does not change what [get] returns for ["u1"]. *)
Lemma other_sessions_untouched_witness :
  snd (get this1 "u1" (fst (set this1 "u2" VNull world1))) = snd (get this1 "u1" world1).
Proof.
  destruct (other_sessions_untouched this1 "u2" "u1" expired_channel VNull world1)
    as (H & _).
  - exact Built_this1.
  - reflexivity.
  - discriminate.
  - exact H.
Defined.

(** One minute after [set] the credentials are still read. *)
Lemma grace_period_after_set_witness :
  snd (get mgmt0 "u1" (elapse 60 (fst (set mgmt0 "u1" creds1 empty_world)))) = Ok creds1.
Proof.
  rewrite (grace_period_after_set mgmt0 "u1" creds1 empty_world 60).
  - vm_compute. reflexivity.
  - discriminate.
  - reflexivity.
  - reflexivity.
Defined.

(** Ten minutes after a refresh the credentials are still read. *)
Lemma idle_window_after_restart_witness :
  snd (get mgmt0 "u1"
         (elapse 600 (fst (restartIdleTTL mgmt0 "u1"
                             (fst (set mgmt0 "u1" creds1 empty_world))))))
  = Ok creds1.
Proof.
  rewrite (idle_window_after_restart mgmt0 "u1" creds1 empty_world 600).
  - vm_compute. reflexivity.
  - discriminate.
  - reflexivity.
  - reflexivity.
  - reflexivity.
Defined.

(** A refresh after 121 seconds finds nothing to refresh. *)
Lemma late_restart_does_not_revive_witness :
  snd (get mgmt0 "u1"
         (fst (restartIdleTTL mgmt0 "u1"
                 (elapse 121 (fst (set mgmt0 "u1" creds1 empty_world))))))
  = Ok VNull.
Proof.
  destruct (late_restart_does_not_revive mgmt0 "u1" creds1 empty_world 121)
    as (_ & _ & H).
  - discriminate.
  - reflexivity.
  - reflexivity.
  - vm_compute. discriminate.
  - exact H.
Defined.

(** With one prefix for both keys the payload is lost at once. *)
Lemma equal_prefixes_lose_the_record_witness :
  snd (get one_prefix "u1" (fst (set one_prefix "u1" creds1 empty_world)))
  = Throw SyntaxError.
Proof.
  rewrite (equal_prefixes_lose_the_record one_prefix "u1" creds1 empty_world).
  - vm_compute. reflexivity.
  - reflexivity.
  - reflexivity.
  - reflexivity.
Defined.

(** Without a hook the credentialed session of [world1] cannot be
    destroyed. *)
Lemma destroy_without_hook_witness :
  snd (destroy mgmt0 "u1" world1) = Throw TypeError
  /\ store (fst (destroy mgmt0 "u1" world1)) = store world1.
Proof.
  pose proof (destroy_without_hook mgmt0 "u1" world1 (fst (get mgmt0 "u1" world1)) creds1)
    as H.
  assert (has_credentials creds1 = true) as Hc by reflexivity.
  cbv zeta in H. rewrite Hc in H.
  destruct H as (H1 & H2 & _).
  - reflexivity.
  - vm_compute. reflexivity.
  - reflexivity.
  - by split.
Defined.

(** A second [set] for ["u1"] leaves nothing of the first. *)
Lemma set_absorbs_previous_witness :
  store (fst (set mgmt0 "u1" VNull world1)) = store (fst (set mgmt0 "u1" VNull empty_world)).
Proof.
  etrans; [|apply (set_absorbs_previous mgmt0 "u1" creds1 VNull empty_world)];
    reflexivity.
Defined.

(** An expiry message handled after [set] destroys the session of
    [world1]. *)
Lemma late_message_destroys_fresh_session_witness :
  snd (get this1 "u1"
         (fst (onExpiration this1 expired_channel "session-idle:u1"
                 (fst (set this1 "u1" creds1 empty_world)))))
  = Ok VNull.
Proof.
  destruct (late_message_destroys_fresh_session this1 expired_channel "u1" creds1
              empty_world) as (_ & _ & _ & H).
  - exact Built_this1.
  - discriminate.
  - reflexivity.
  - reflexivity.
  - apply mini_json_round_trip. reflexivity.
  - reflexivity.
  - reflexivity.
  - exact H.
Defined.

(** The default manager has the default prefixes. *)
Lemma constructor_invariants_witness :
  prefixSession this1 <> "" /\ prefixSessionIdleSize this1 = 13%nat.
Proof.
  destruct (constructor_invariants this1 Built_this1) as (H1 & _ & H3 & _).
  split; [exact H1|]. rewrite H3. reflexivity.
Defined.

(** A day of refreshes and waiting after [set]: the record is gone. *)
Lemma record_lifetime_is_absolute_witness :
  let cs := [CallRestartIdleTTL "u1"; Wait 50000; CallGet "u1";
             CallRestartIdleTTL "u1"; Wait 40000] in
  store (snd (run cs (this1, fst (set this1 "u1" creds1 empty_world)))) !! "session:u1"
  = None.
Proof.
  intros cs.
  apply (record_lifetime_is_absolute this1 "u1" creds1 empty_world cs).
  - reflexivity.
  - reflexivity.
  - reflexivity.
  - intros sess Hin. unfold cs in Hin.
    repeat (apply elem_of_cons in Hin as [Hin|Hin]; [discriminate Hin|]).
    by apply elem_of_nil in Hin.
  - intros c Hin. unfold cs in Hin.
    repeat (apply elem_of_cons in Hin as [->|Hin]; [simpl; try done; lia|]).
    by apply elem_of_nil in Hin.
  - vm_compute. discriminate.
Defined.


(** After its marker has expired, ["u1"] stays unreadable through refreshes
    and messages. *)
Lemma gone_stays_gone_witness :
  let cs := [CallRestartIdleTTL "u1"; Message expired_channel "session-idle:u1";
             CallSet "u2" creds1; Wait 10] in
  snd (get (fst (run cs (this1, world2))) "u1" (snd (run cs (this1, world2)))) = Ok VNull.
Proof.
  intros cs. apply (gone_stays_gone this1 "u1" world2 cs).
  - reflexivity.
  - vm_compute. reflexivity.
  - intros sess Hin. unfold cs in Hin.
    repeat (apply elem_of_cons in Hin as [Hin|Hin]; [discriminate Hin|]).
    by apply elem_of_nil in Hin.
Defined.




